(** * Zero-knowledge proofs over ElGamal: a shallow embedding of [zkps.py]

    The development follows the layout of the Python module: the two
    Fiat-Shamir hash primitives ([hashfunc], [hashfunc_bits]), the
    Chaum-Pedersen proof, the disjunctive plaintext-equality proof, the
    proof of knowledge of an encrypted discrete logarithm and the
    "discrete log equals double discrete log" proof.

    Conventions.
    - [mpz] and [int] are both [Z]; [bytes] is a [list Z] of octets.
    - [x % m] is [Z.modulo] (floor modulus, as in Python); it is only
      applied to the modulus or the order of a group, which are
      positive.
    - [random_integer] is replaced by explicit arguments holding the
      sampled values, so that provers are functions.
    - Python exceptions are values of [exn]; a function with an
      [assert] or an indexed assignment returns a [result]. *)

From Stdlib Require Import ZArith List Bool Lia Zcong Znumtheory Ascii.
From stdpp Require Import base list.
Import ListNotations.
Local Open Scope Z_scope.

(** ** Python runtime: exceptions and sequences *)

Module Py.

Inductive exn : Set :=
| AssertionError
| IndexError
| TypeError
| AttributeError.

Inductive result (A : Type) : Type :=
| Ok (v : A)
| Raise (e : exn).
Arguments Ok {A} v.
Arguments Raise {A} e.

Definition bind {A B : Type} (m : result A) (k : A -> result B) : result B :=
  match m with
  | Ok v => k v
  | Raise e => Raise e
  end.

Definition assert (cond : bool) : result unit :=
  if cond then Ok tt else Raise AssertionError.

(** [l[j]] addresses position [j] for [0 <= j < len(l)] and position
    [len(l) + j] for [-len(l) <= j < 0]; any other index raises
    [IndexError]. *)
Definition index (len : nat) (j : Z) : result nat :=
  if (0 <=? j) && (j <? Z.of_nat len) then Ok (Z.to_nat j)
  else if (- Z.of_nat len <=? j) && (j <? 0) then Ok (Z.to_nat (Z.of_nat len + j))
  else Raise IndexError.

(** [l[j] = v] *)
Definition setitem {A : Type} (l : list A) (j : Z) (v : A) : result (list A) :=
  bind (index (length l) j) (fun i => Ok (<[i := v]> l)).

(** [sum(l)] over integers. *)
Definition sum (l : list Z) : Z := fold_left Z.add l 0.

(** An operation that needs an integer and finds [None] raises [e]. *)
Definition the_int (e : exn) (v : option Z) : result Z :=
  match v with
  | Some n => Ok n
  | None => Raise e
  end.

Fixpoint the_ints (e : exn) (l : list (option Z)) : result (list Z) :=
  match l with
  | [] => Ok []
  | v :: l' =>
      bind (the_int e v) (fun n =>
      bind (the_ints e l') (fun ns => Ok (n :: ns)))
  end.

End Py.

Import Py.

Notation "'let*' x := m 'in' k" := (Py.bind m (fun x => k))
  (at level 10, x pattern, m at level 100, k at level 200).

(** ** SHA-256 (FIPS 180-4), the function behind [hashlib.sha256] *)

Module SHA256.

Definition mask32 : Z := 4294967295.

Definition add32 (x y : Z) : Z := Z.land (x + y) mask32.

Definition rotr (n x : Z) : Z :=
  Z.lor (Z.shiftr x n) (Z.land (Z.shiftl x (32 - n)) mask32).

Definition Ch (x y z : Z) : Z :=
  Z.lxor (Z.land x y) (Z.land (Z.lxor x mask32) z).

Definition Maj (x y z : Z) : Z :=
  Z.lxor (Z.lxor (Z.land x y) (Z.land x z)) (Z.land y z).

Definition bsig0 (x : Z) : Z := Z.lxor (Z.lxor (rotr 2 x) (rotr 13 x)) (rotr 22 x).
Definition bsig1 (x : Z) : Z := Z.lxor (Z.lxor (rotr 6 x) (rotr 11 x)) (rotr 25 x).
Definition ssig0 (x : Z) : Z := Z.lxor (Z.lxor (rotr 7 x) (rotr 18 x)) (Z.shiftr x 3).
Definition ssig1 (x : Z) : Z := Z.lxor (Z.lxor (rotr 17 x) (rotr 19 x)) (Z.shiftr x 10).

(** Round constants: the first 32 bits of the fractional parts of the
    cube roots of the first 64 primes, written in decimal. *)
Definition K : list Z :=
  [ 1116352408; 1899447441; 3049323471; 3921009573; 961987163; 1508970993;
    2453635748; 2870763221; 3624381080; 310598401; 607225278; 1426881987;
    1925078388; 2162078206; 2614888103; 3248222580; 3835390401; 4022224774;
    264347078; 604807628; 770255983; 1249150122; 1555081692; 1996064986;
    2554220882; 2821834349; 2952996808; 3210313671; 3336571891; 3584528711;
    113926993; 338241895; 666307205; 773529912; 1294757372; 1396182291;
    1695183700; 1986661051; 2177026350; 2456956037; 2730485921; 2820302411;
    3259730800; 3345764771; 3516065817; 3600352804; 4094571909; 275423344;
    430227734; 506948616; 659060556; 883997877; 958139571; 1322822218;
    1537002063; 1747873779; 1955562222; 2024104815; 2227730452; 2361852424;
    2428436474; 2756734187; 3204031479; 3329325298 ].

(** The eight chaining words. *)
Record state : Set := State {
  sa : Z; sb : Z; sc : Z; sd : Z; se : Z; sf : Z; sg : Z; sh : Z
}.

(** Initial value: fractional parts of the square roots of the first
    eight primes. *)
Definition init : state :=
  State 1779033703 3144134277 1013904242 2773480762
        1359893119 2600822924 528734635 1541459225.

(** One of the 64 rounds, on the schedule word [wt] and constant [kt]. *)
Definition round (s : state) (kt wt : Z) : state :=
  let t1 := add32 (add32 (add32 (add32 (sh s) (bsig1 (se s))) (Ch (se s) (sf s) (sg s))) kt) wt in
  let t2 := add32 (bsig0 (sa s)) (Maj (sa s) (sb s) (sc s)) in
  State (add32 t1 t2) (sa s) (sb s) (sc s) (add32 (sd s) t1) (se s) (sf s) (sg s).

(** The message schedule is kept as a window of sixteen words
    [W_t .. W_(t+15)]; a step consumes [W_t] and appends [W_(t+16)]. *)
Definition step (acc : state * list Z) (kt : Z) : state * list Z :=
  let '(s, win) := acc in
  match win with
  | [] => (s, [])
  | w0 :: rest =>
      let w16 := add32 (add32 (add32 (ssig1 (nth 13 rest 0)) (nth 8 rest 0))
                              (ssig0 (nth 0 rest 0))) w0 in
      (round s kt w0, rest ++ [w16])
  end.

Definition be32 (b3 b2 b1 b0 : Z) : Z :=
  Z.lor (Z.lor (Z.shiftl b3 24) (Z.shiftl b2 16)) (Z.lor (Z.shiftl b1 8) b0).

(** The sixteen big-endian words of a 64-byte block. *)
Fixpoint words (n : nat) (bs : list Z) : list Z :=
  match n, bs with
  | S n', b3 :: b2 :: b1 :: b0 :: bs' => be32 b3 b2 b1 b0 :: words n' bs'
  | _, _ => []
  end.

Definition compress (s : state) (block : list Z) : state :=
  let s' := fst (fold_left step K (s, words 16 block)) in
  State (add32 (sa s) (sa s')) (add32 (sb s) (sb s')) (add32 (sc s) (sc s'))
        (add32 (sd s) (sd s')) (add32 (se s) (se s')) (add32 (sf s) (sf s'))
        (add32 (sg s) (sg s')) (add32 (sh s) (sh s')).

(** Big-endian bytes of an integer, [n] of them. *)
Fixpoint be_bytes (n : nat) (x : Z) : list Z :=
  match n with
  | O => []
  | S n' => Z.land (Z.shiftr x (8 * Z.of_nat n')) 255 :: be_bytes n' x
  end.

(** Padding: a [1] bit, zeros up to 56 modulo 64, the bit length on 64 bits. *)
Definition pad (msg : list Z) : list Z :=
  let len := Z.of_nat (length msg) in
  msg ++ [128] ++ repeat 0 (Z.to_nat ((55 - len) mod 64)) ++ be_bytes 8 (8 * len).

Fixpoint blocks (n : nat) (s : state) (bs : list Z) : state :=
  match n with
  | O => s
  | S n' => blocks n' (compress s (firstn 64 bs)) (skipn 64 bs)
  end.

Definition digest_of (s : state) : list Z :=
  be_bytes 4 (sa s) ++ be_bytes 4 (sb s) ++ be_bytes 4 (sc s) ++ be_bytes 4 (sd s) ++
  be_bytes 4 (se s) ++ be_bytes 4 (sf s) ++ be_bytes 4 (sg s) ++ be_bytes 4 (sh s).

Definition sha256 (msg : list Z) : list Z :=
  let padded := pad msg in
  digest_of (blocks (length padded / 64)%nat init padded).

End SHA256.

(** The [hashlib] object: [update] appends to the message, [digest]
    hashes what was fed so far. *)
Module hashlib.

Definition hash_object : Type := list Z.
Definition sha256 : hash_object := [].
Definition update (h : hash_object) (data : list Z) : hash_object := h ++ data.
Definition digest (h : hash_object) : list Z := SHA256.sha256 h.

End hashlib.


(** ** Challenge derivation *)

(** [mpz.digits()]: the decimal representation of an integer, most
    significant digit first, with a leading minus sign for a negative
    one.  The digits of a natural number are produced by repeated
    division by ten; a number below [2 ^ fuel] has at most [fuel]
    digits.  A [str] is a list of characters. *)
Definition digit_char (d : Z) : ascii := ascii_of_N (Z.to_N (48 + d)).

Fixpoint digits_aux (fuel : nat) (n : Z) (acc : list ascii) : list ascii :=
  match fuel with
  | O => acc
  | S fuel' =>
      if n <? 10 then digit_char n :: acc
      else digits_aux fuel' (n / 10) (digit_char (n mod 10) :: acc)
  end.

Definition digits_nat (n : Z) : list ascii :=
  digits_aux (S (Z.to_nat (Z.log2 n))) n [].

Definition digits (v : Z) : list ascii :=
  if v <? 0 then "-"%char :: digits_nat (- v) else digits_nat v.

(** [str.encode()] on a string of ASCII characters: one octet each. *)
Definition code (ch : ascii) : Z := Z.of_N (N_of_ascii ch).

Definition encode (s : list ascii) : list Z := map code s.

(** [int.from_bytes(bytes, byteorder='little')] *)
Definition from_bytes_little (bs : list Z) : Z :=
  fold_right (fun b acc => b + 256 * acc) 0 bs.

(** ** Groups and ElGamal objects (modules [integer] and [elgamal]) *)

(** Modelled from the spec: the class [SchnorrGroup] of module [integer]
    is not part of the sources.  "Group (external): prime modulus p,
    prime order q, generator; exposes exponentiation, membership test,
    order." *)
Record SchnorrGroup : Set := {
  p : Z;
  q : Z;
  generator : Z
}.

Definition order (G : SchnorrGroup) : Z := q G.

(** The power [base ^ e] for an integer exponent: for a negative one,
    the power of the inverse of [base] modulo [m]. *)
Definition zpow (m base e : Z) : Z :=
  if 0 <=? e then base ^ e else Z.invmod base m ^ (- e).

(** Modelled from the spec: [SchnorrGroup.powmod] is modular
    exponentiation under the group's modulus.  The sources call it with
    exponent [-1] for the inverse ("b * m^-1 mod p"), so a negative
    exponent is the power of the inverse modulo [p]. *)
Definition powmod (G : SchnorrGroup) (base e : Z) : Z :=
  zpow (p G) base e mod p G.

(** Modelled from the spec: [SchnorrGroup.is_element], the membership
    test of the subgroup of order [q] of the integers modulo [p]. *)
Definition is_element (G : SchnorrGroup) (x : Z) : bool :=
  (0 <? x) && (x <? p G) && (powmod G x (q G) =? 1).

(** Modelled from the spec: the public part of [elgamal.ElGamalKeypair],
    "group, generator g, public key y". *)
Record ElGamalKeypair : Set := {
  key_G_q : SchnorrGroup;
  key_g : Z;
  key_y : Z
}.

(** Modelled from the spec: [elgamal.ElGamalCiphertext], "pair (a, b)
    tied to a group". *)
Record ElGamalCiphertext : Set := {
  ct_G_q : SchnorrGroup;
  ct_a : Z;
  ct_b : Z
}.

(** ** [hashfunc] and [hashfunc_bits] *)

Definition feed (h : hashlib.hash_object) (v : Z) : hashlib.hash_object :=
  hashlib.update h (encode (digits v)).

Definition hashfunc (G_q : SchnorrGroup) (values : list Z) : Z :=
  let h := fold_left feed values hashlib.sha256 in
  from_bytes_little (hashlib.digest h) mod order G_q.

Definition _bits_from_bytes (array : list Z) : list Z :=
  flat_map (fun b => map (fun i => Z.land (Z.shiftr b (Z.of_nat i)) 1) (seq 0 8)) array.

Definition hashfunc_bits (values : list Z) : list Z :=
  let h := fold_left feed values hashlib.sha256 in
  let c := hashlib.digest h in
  _bits_from_bytes c.

(** ** Chaum-Pedersen proof of equality of discrete logarithms *)

Definition DLEQProofTranscript : Set := Z * Z * Z.

(** [w] is the value returned by [random_integer(0, G_q.order())]. *)
Definition proof_dleq (w : Z) (G_q : SchnorrGroup) (g_1 h_1 g_2 h_2 alpha : Z)
  : DLEQProofTranscript :=
  let t_1 := powmod G_q g_1 w in
  let t_2 := powmod G_q g_2 w in
  let c := hashfunc G_q [h_1; h_2; t_1; t_2] in
  let res := (w - alpha * c) mod q G_q in
  (t_1, t_2, res).

Definition verify_dleq (G_q : SchnorrGroup) (proof : DLEQProofTranscript)
    (g_1 h_1 g_2 h_2 : Z) : bool :=
  let '(t_1, t_2, res) := proof in
  let c := hashfunc G_q [h_1; h_2; t_1; t_2] in
  let b_1 := t_1 =? powmod G_q g_1 res * powmod G_q h_1 c mod p G_q in
  let b_2 := t_2 =? powmod G_q g_2 res * powmod G_q h_2 c mod p G_q in
  b_1 && b_2.


(** ** Proof of correct decryption *)

(** [w] is the value sampled by the underlying [proof_dleq]. *)
Definition proof_correct_decryption (w : Z) (key : ElGamalKeypair)
    (c : ElGamalCiphertext) (m r : Z) : DLEQProofTranscript :=
  proof_dleq w (ct_G_q c) (key_g key) (ct_a c) (key_y key)
             (ct_b c * powmod (ct_G_q c) m (-1) mod p (ct_G_q c)) r.

Definition verify_correct_decryption (proof : DLEQProofTranscript)
    (key : ElGamalKeypair) (c : ElGamalCiphertext) (m : Z) : bool :=
  verify_dleq (ct_G_q c) proof (key_g key) (ct_a c) (key_y key)
              (ct_b c * powmod (ct_G_q c) m (-1) mod p (ct_G_q c)).

(** ** Proof of plaintext equality *)

Definition proof_plaintext_equality (w : Z) (key : ElGamalKeypair)
    (c : ElGamalCiphertext) (r : Z) (c_prime : ElGamalCiphertext) (r_prime : Z)
  : DLEQProofTranscript :=
  let r_hat := (r_prime - r) mod order (key_G_q key) in
  let a_hat := ct_a c_prime * powmod (ct_G_q c) (ct_a c) (-1) mod p (ct_G_q c) in
  let b_hat := ct_b c_prime * powmod (ct_G_q c) (ct_b c) (-1) mod p (ct_G_q c) in
  proof_dleq w (ct_G_q c) (key_g key) a_hat (key_y key) b_hat r_hat.

Definition verify_plaintext_equality (proof : DLEQProofTranscript)
    (key : ElGamalKeypair) (c c_prime : ElGamalCiphertext) : bool :=
  let a_hat := ct_a c_prime * powmod (ct_G_q c) (ct_a c) (-1) mod p (ct_G_q c) in
  let b_hat := ct_b c_prime * powmod (ct_G_q c) (ct_b c) (-1) mod p (ct_G_q c) in
  verify_dleq (ct_G_q c) proof (key_g key) a_hat (key_y key) b_hat.

(** ** Disjunctive plaintext-equality proof (1-of-n) *)

Definition PlaintextEqualityORProof : Set := list (Z * Z) * list Z * list Z.

(** While the prover runs, the three lists hold [None] at the positions
    that are not filled yet. *)
Definition ORProofStore : Set :=
  list (option Z * option Z) * list (option Z) * list (option Z).

(** The list hashed into the "master challenge". *)
Definition or_hash_input (c : ElGamalCiphertext) (c_prime : list ElGamalCiphertext)
    (t1s t2s : list Z) : list Z :=
  [ct_a c] ++ map ct_a c_prime ++ [ct_b c] ++ map ct_b c_prime ++ t1s ++ t2s.

(** Body of the simulation loop, for index [i] and alternative
    [c_prime[i]]; [sim i] holds the two values sampled in this
    iteration, the response first. *)
Definition simulate (key : ElGamalKeypair) (a_inv b_inv : Z) (sim : nat -> Z * Z)
    (j : Z) (st : ORProofStore) (ic : nat * ElGamalCiphertext) : ORProofStore :=
  let G_q := key_G_q key in
  let '(i, c_prime_i) := ic in
  if Z.of_nat i =? j then st
  else
    let '(t, res, challenges) := st in
    let '(res_i, challenge_i) := sim i in
    let t1 := powmod G_q (key_g key) res_i
              * powmod G_q (ct_a c_prime_i * a_inv) challenge_i mod p G_q in
    let t2 := powmod G_q (key_y key) res_i
              * powmod G_q (ct_b c_prime_i * b_inv) challenge_i mod p G_q in
    (<[i := (Some t1, Some t2)]> t, <[i := Some res_i]> res,
     <[i := Some challenge_i]> challenges).

(** [sum(challenges[i] for i in range(len(challenges)) if i != j)] *)
Definition sum_others (challenges : list (option Z)) (j : Z) : result Z :=
  let kept := List.filter (fun ic : nat * option Z => negb (Z.of_nat (fst ic) =? j))
                          (combine (seq 0 (length challenges)) challenges) in
  let* ns := the_ints TypeError (map snd kept) in
  Ok (Py.sum ns).

(** [w_j] is the first sampled value; the loop over
    [range(len(c_prime))] reads [c_prime[i]], here the enumeration of
    [c_prime]. *)
Definition proof_plaintext_equality_or (w_j : Z) (sim : nat -> Z * Z)
    (key : ElGamalKeypair) (c : ElGamalCiphertext) (r : Z)
    (c_prime : list ElGamalCiphertext) (j : Z) (r_j : Z) : result ORProofStore :=
  let G_q := key_G_q key in
  let n := length c_prime in
  let t := repeat (@None Z, @None Z) n in
  let res := repeat (@None Z) n in
  let challenges := repeat (@None Z) n in
  let* t := setitem t j (Some (powmod G_q (key_g key) w_j), Some (powmod G_q (key_y key) w_j)) in
  let a_inv := powmod G_q (ct_a c) (-1) in
  let b_inv := powmod G_q (ct_b c) (-1) in
  let '(t, res, challenges) :=
    fold_left (simulate key a_inv b_inv sim j) (combine (seq 0 n) c_prime)
              (t, res, challenges) in
  let* t1s := the_ints AttributeError (map fst t) in
  let* t2s := the_ints AttributeError (map snd t) in
  let challenge := hashfunc G_q (or_hash_input c c_prime t1s t2s) in
  let* others := sum_others challenges j in
  let challenge_j := (challenge - others) mod p G_q in
  let* challenges := setitem challenges j (Some challenge_j) in
  let* res := setitem res j (Some ((w_j - (r_j - r) * challenge_j) mod order G_q)) in
  Ok (t, res, challenges).

Definition all (bs : list bool) : bool := forallb (fun b => b) bs.

Definition verify_plaintext_equality_or (proof : PlaintextEqualityORProof)
    (key : ElGamalKeypair) (c : ElGamalCiphertext)
    (c_prime : list ElGamalCiphertext) : result bool :=
  let G_q := key_G_q key in
  let '(t, res, challenges) := proof in
  let* _ := assert ((length challenges =? length res)%nat
                    && (length res =? length t)%nat
                    && (length t =? length c_prime)%nat) in
  let challenge := hashfunc G_q (or_hash_input c c_prime (map fst t) (map snd t)) in
  let b_sum_of_challenges := challenge =? Py.sum challenges mod p G_q in
  let a_inv := powmod G_q (ct_a c) (-1) in
  let b_inv := powmod G_q (ct_b c) (-1) in
  let rows := combine (combine (combine t res) challenges) c_prime in
  let b1 := map (fun row : (Z * Z) * Z * Z * ElGamalCiphertext =>
                   let '(ti1ti2, res_i, challenge_i, c_prime_i) := row in
                   fst ti1ti2 =? powmod G_q (key_g key) res_i
                                 * powmod G_q (ct_a c_prime_i * a_inv) challenge_i mod p G_q)
                rows in
  let b2 := map (fun row : (Z * Z) * Z * Z * ElGamalCiphertext =>
                   let '(ti1ti2, res_i, challenge_i, c_prime_i) := row in
                   snd ti1ti2 =? powmod G_q (key_y key) res_i
                                 * powmod G_q (ct_b c_prime_i * b_inv) challenge_i mod p G_q)
                rows in
  Ok (b_sum_of_challenges && all b1 && all b2).

(** ** Proof of knowledge of the discrete logarithm of a plaintext *)

Definition PlaintextDLogPoK : Set := Z * Z * Z * Z.

(** [w_1] and [w_2] are the two sampled values, in this order. *)
Definition proof_plaintext_dlog (w_1 w_2 : Z) (key : ElGamalKeypair)
    (c : ElGamalCiphertext) (h x r : Z) : PlaintextDLogPoK :=
  let G_q := key_G_q key in
  let a := ct_a c in
  let b := ct_b c in
  let g := key_g key in
  let y := key_y key in
  let t_1 := powmod G_q h w_1 * powmod G_q y w_2 mod p G_q in
  let t_2 := powmod G_q g w_2 in
  let challenge := hashfunc G_q [g; h; y; t_1; t_2; a; b] in
  let res1 := (w_1 + challenge * x) mod order G_q in
  let res2 := (w_2 + challenge * r) mod order G_q in
  (t_1, t_2, res1, res2).

Definition verify_plaintext_dlog (proof : PlaintextDLogPoK) (key : ElGamalKeypair)
    (c : ElGamalCiphertext) (h : Z) : bool :=
  let G_q := key_G_q key in
  let a := ct_a c in
  let b := ct_b c in
  let g := key_g key in
  let y := key_y key in
  let '(t_1, t_2, res1, res2) := proof in
  let challenge := hashfunc G_q [g; h; y; t_1; t_2; a; b] in
  let b1 := (powmod G_q h res1 * powmod G_q y res2 mod p G_q)
            =? (t_1 * powmod G_q b challenge mod p G_q) in
  let b2 := powmod G_q g res2 =? (t_2 * powmod G_q a challenge mod p G_q) in
  b1 && b2.

(** ** Discrete logarithm equals double discrete logarithm *)

Definition DLEqualDoubleDLProof : Set := list Z * list Z.

(** The assertions shared by the prover and the verifier. *)
Definition ddl_preconditions (G_q G_r : SchnorrGroup) (g h y A B : Z) : bool :=
  (p G_q =? p G_r * 2 + 1)
  && is_element G_q g && is_element G_q B
  && is_element G_r h && is_element G_r y && is_element G_r A.

(** [list == list]: same length and equal elements. *)
Fixpoint list_eqb (l1 l2 : list Z) : bool :=
  match l1, l2 with
  | [], [] => true
  | x1 :: l1', x2 :: l2' => (x1 =? x2) && list_eqb l1' l2'
  | _, _ => false
  end.

(** [w i] is the value sampled in round [i]. *)
Definition proof_dl_equal_ddl (w : nat -> Z) (G_q G_r : SchnorrGroup)
    (g h y A B x : Z) : result DLEqualDoubleDLProof :=
  let* _ := assert (p G_q =? p G_r * 2 + 1) in
  let* _ := assert (is_element G_q g) in
  let* _ := assert (is_element G_q B) in
  let* _ := assert (is_element G_r h) in
  let* _ := assert (is_element G_r y) in
  let* _ := assert (is_element G_r A) in
  let bits := 256%nat in
  let ws := map w (seq 0 bits) in
  let t_g := map (fun w_i => powmod G_q g (powmod G_r y w_i)) ws in
  let t_h := map (fun w_i => powmod G_r h w_i) ws in
  let c := hashfunc_bits ([g; h; y; A; B] ++ t_g ++ t_h) in
  let r := map (fun cw : Z * Z => let '(c_i, w_i) := cw in (w_i - c_i * x) mod order G_r)
               (combine c ws) in
  Ok (c, r).

Definition verify_dl_equal_ddl (proof : DLEqualDoubleDLProof) (G_q G_r : SchnorrGroup)
    (g h y A B : Z) : result bool :=
  let* _ := assert (p G_q =? p G_r * 2 + 1) in
  let* _ := assert (is_element G_q g) in
  let* _ := assert (is_element G_q B) in
  let* _ := assert (is_element G_r h) in
  let* _ := assert (is_element G_r y) in
  let* _ := assert (is_element G_r A) in
  let '(c, r) := proof in
  let rounds := combine r c in
  let t_g := map (fun rc : Z * Z => let '(r_i, c_i) := rc in
                    powmod G_q (if c_i =? 0 then g else B) (powmod G_r y r_i)) rounds in
  let t_h := map (fun rc : Z * Z => let '(r_i, c_i) := rc in
                    powmod G_r h r_i * powmod G_r A c_i mod p G_r) rounds in
  let c_new := hashfunc_bits ([g; h; y; A; B] ++ t_g ++ t_h) in
  Ok (list_eqb c c_new).


(** ** Reference definitions, following the specification's wording *)

(** Congruence modulo [m]. *)
Definition cong (m a b : Z) : Prop := a mod m = b mod m.

(** "canonical decimal-digit string (nonnegative integer, no sign, no
    leading zeros except "0" itself, no separators)". *)
Definition is_digit (ch : ascii) : Prop := 48 <= code ch <= 57.

Definition decimal_value (s : list ascii) : Z :=
  fold_left (fun acc ch => 10 * acc + (code ch - 48)) s 0.

Definition canonical_decimal (n : Z) (s : list ascii) : Prop :=
  s <> []
  /\ Forall is_digit s
  /\ (forall rest, s = "0"%char :: rest -> rest = [])
  /\ decimal_value s = n.

(** The number whose binary digits, least significant first, are
    [bits]. *)
Definition bits_value (bits : list Z) : Z :=
  fold_right (fun b acc => b + 2 * acc) 0 bits.

(** "interpret the 32-byte digest as an unsigned integer in
    little-endian byte order": byte [i] weighs [256 ^ i]. *)
Definition little_endian_value (bs : list Z) : Z :=
  fold_right Z.add 0 (imap (fun i b => b * 256 ^ Z.of_nat i) bs).

(** [scalar_challenge(values)] as the specification words it, for a
    group of order [ord]. *)
Definition scalar_challenge_spec (ord : Z) (values : list Z) (c : Z) : Prop :=
  exists (encodings : list (list ascii)) (digest : list Z),
    Forall2 canonical_decimal values encodings
    /\ digest = SHA256.sha256 (concat (map encode encodings))
    /\ length digest = 32%nat
    /\ c = little_endian_value digest mod ord.

(** [bit_challenge(values)] as the specification words it: bit [i] of
    the output is bit [i mod 8] of byte [i / 8] of the digest. *)
Definition bit_challenge_spec (values : list Z) (bits : list Z) : Prop :=
  exists encodings : list (list ascii),
    Forall2 canonical_decimal values encodings
    /\ length bits = 256%nat
    /\ forall i : nat, (i < 256)%nat ->
         nth i bits 0
         = Z.b2z (Z.testbit (nth (i / 8) (SHA256.sha256 (concat (map encode encodings))) 0)
                            (Z.of_nat (i mod 8))).

(** The structural condition asserted by the disjunctive verifier. *)
Definition or_lengths_agree (proof : PlaintextEqualityORProof)
    (c_prime : list ElGamalCiphertext) : Prop :=
  let '(t, res, challenges) := proof in
  length challenges = length res /\ length res = length t /\ length t = length c_prime.

(** The rows that the disjunctive verifier walks through, and the two
    equations it checks on a row. *)
Definition or_rows (proof : PlaintextEqualityORProof) (c_prime : list ElGamalCiphertext)
  : list ((Z * Z) * Z * Z * ElGamalCiphertext) :=
  let '(t, res, challenges) := proof in
  combine (combine (combine t res) challenges) c_prime.

Definition or_row_holds (key : ElGamalKeypair) (c : ElGamalCiphertext)
    (row : (Z * Z) * Z * Z * ElGamalCiphertext) : bool :=
  let G_q := key_G_q key in
  let '(ti1ti2, res_i, challenge_i, c_prime_i) := row in
  (fst ti1ti2 =? powmod G_q (key_g key) res_i
                 * powmod G_q (ct_a c_prime_i * powmod G_q (ct_a c) (-1)) challenge_i
                 mod p G_q)
  && (snd ti1ti2 =? powmod G_q (key_y key) res_i
                    * powmod G_q (ct_b c_prime_i * powmod G_q (ct_b c) (-1)) challenge_i
                    mod p G_q).

(** The pair of commitments that the simulation loop stores for the
    sampled pair [(res_i, challenge_i)] and the alternative [c_prime_i]. *)
Definition simulated_commitment (key : ElGamalKeypair) (a_inv b_inv : Z)
    (rc : Z * Z) (c_prime_i : ElGamalCiphertext) : option Z * option Z :=
  let G_q := key_G_q key in
  let '(res_i, challenge_i) := rc in
  (Some (powmod G_q (key_g key) res_i
         * powmod G_q (ct_a c_prime_i * a_inv) challenge_i mod p G_q),
   Some (powmod G_q (key_y key) res_i
         * powmod G_q (ct_b c_prime_i * b_inv) challenge_i mod p G_q)).

(** A pair of commitments without [None]. *)
Definition filled (ti : option Z * option Z) : Prop :=
  is_Some (fst ti) /\ is_Some (snd ti).

(** The commitments of round [i] of the double-discrete-log proof, as
    the verifier recomputes them: the inner power is reduced modulo the
    modulus of the inner group. *)
Definition ddl_t_g (G_q G_r : SchnorrGroup) (g y B : Z) (rc : Z * Z) : Z :=
  let '(r_i, c_i) := rc in
  zpow (p G_q) (if c_i =? 0 then g else B) (zpow (p G_r) y r_i mod p G_r) mod p G_q.

Definition ddl_t_h (G_r : SchnorrGroup) (h A : Z) (rc : Z * Z) : Z :=
  let '(r_i, c_i) := rc in
  zpow (p G_r) h r_i * zpow (p G_r) A c_i mod p G_r.

(** The values sampled by the double-discrete-log prover, the challenge
    it derives from its commitments and its response in one round. *)
Definition ddl_samples (w : nat -> Z) : list Z := map w (seq 0 256).

Definition ddl_challenge (w : nat -> Z) (G_q G_r : SchnorrGroup) (g h y A B : Z)
  : list Z :=
  hashfunc_bits ([g; h; y; A; B]
                 ++ map (fun w_i => powmod G_q g (powmod G_r y w_i)) (ddl_samples w)
                 ++ map (fun w_i => powmod G_r h w_i) (ddl_samples w)).

Definition ddl_response (ord x : Z) (cw : Z * Z) : Z :=
  let '(c_i, w_i) := cw in (w_i - c_i * x) mod ord.

(** The same commitment as the specification words it, "(c_i==0 ? g :
    B)^(y^r_i mod r) mod p", with [r] the order of the inner group. *)
Definition ddl_t_g_spec (G_q G_r : SchnorrGroup) (g y B : Z) (rc : Z * Z) : Z :=
  let '(r_i, c_i) := rc in
  (if c_i =? 0 then g else B) ^ (y ^ r_i mod order G_r) mod p G_q.

(** The acceptance condition built on [ddl_t_g_spec]. *)
Definition ddl_accepts_spec (proof : DLEqualDoubleDLProof) (G_q G_r : SchnorrGroup)
    (g h y A B : Z) : bool :=
  let '(c, r) := proof in
  let rounds := combine r c in
  list_eqb c (hashfunc_bits ([g; h; y; A; B]
                             ++ map (ddl_t_g_spec G_q G_r g y B) rounds
                             ++ map (ddl_t_h G_r h A) rounds)).

(** ** A toy instance: the groups of order 11 modulo 23 and of order 5
    modulo 11 *)

Definition G23 : SchnorrGroup := {| p := 23; q := 11; generator := 4 |}.
Definition G11 : SchnorrGroup := {| p := 11; q := 5; generator := 3 |}.

(** Secret key 6. *)
Definition key23 : ElGamalKeypair :=
  {| key_G_q := G23; key_g := 4; key_y := 2 |}.

(** ElGamal encryption of [m] with randomness [r] under [key23]. *)
Definition enc23 (m r : Z) : ElGamalCiphertext :=
  {| ct_G_q := G23;
     ct_a := powmod G23 (key_g key23) r;
     ct_b := powmod G23 (key_y key23) r * m mod p G23 |}.

(** An honest double-discrete-log transcript for the secret [x = 3],
    with [A = 3^3 mod 11 = 5], [B = 4^(4^3 mod 11) mod 23 = 13] and the
    sampled values [w_i = i mod 5]. *)
Definition ddl_example : DLEqualDoubleDLProof :=
  Eval vm_compute in
    match proof_dl_equal_ddl (fun i => Z.of_nat i mod 5) G23 G11 4 3 4 5 13 3 with
    | Ok proof => proof
    | Raise _ => ([], [])
    end.

(** Values for the simulated sub-proofs: response [i + 2] and
    challenge [i + 3] at index [i]. *)
Definition sim23 (i : nat) : Z * Z := (Z.of_nat i + 2, Z.of_nat i + 3).

(** Sampled values that happen to repeat the real commitment:
    response 7 and challenge 0 at every index. *)
Definition sim_zero (i : nat) : Z * Z := (7, 0).

(** Reading a finished store as a transcript. *)
Definition transcript_of (st : ORProofStore) : PlaintextEqualityORProof :=
  let '(t, res, challenges) := st in
  (map (fun ti => (default 0 (fst ti), default 0 (snd ti))) t,
   map (default 0) res, map (default 0) challenges).


(** * Properties *)

(** ** The hash primitives *)

Section Hashing.

(** The test vectors of FIPS 180-4 for the empty message and ["abc"],
    digests read as big-endian numbers. *)
Example sha256_empty :
  fold_left (fun acc b => acc * 256 + b) (SHA256.sha256 []) 0
  = 0xe3b0c44298fc1c149afbf4c8996fb92427ae41e4649b934ca495991b7852b855.
Proof. vm_compute. reflexivity. Qed.

Example sha256_abc :
  fold_left (fun acc b => acc * 256 + b) (SHA256.sha256 [97; 98; 99]) 0
  = 0xba7816bf8f01cfea414140de5dae2223b00361a396177a9cb410ff61f20015ad.
Proof. vm_compute. reflexivity. Qed.

(** A message of 300 octets, hashed over five blocks. *)
Example sha256_five_blocks :
  fold_left (fun acc b => acc * 256 + b)
            (SHA256.sha256 (map (fun i => Z.of_nat i mod 256) (seq 0 300))) 0
  = 53897105039637989888142872469136189942592945013262938442865889683478522795405.
Proof. vm_compute. reflexivity. Qed.

Example hashfunc_example : hashfunc G23 [4; 18; 0; 12345678901234567890] = 10.
Proof. vm_compute. reflexivity. Qed.

Example digits_examples :
  digits 0 = ["0"%char] /\ digits 1203 = ["1"; "2"; "0"; "3"]%char
  /\ digits (-45) = ["-"; "4"; "5"]%char.
Proof. vm_compute. repeat split. Qed.

Lemma sha256_length (msg : list Z) : length (SHA256.sha256 msg) = 32%nat.
Proof. unfold SHA256.sha256, SHA256.digest_of. reflexivity. Qed.

(** Feeding the values one by one hashes the concatenation of their
    encodings, in argument order. *)
Lemma fold_feed (values : list Z) (h : hashlib.hash_object) :
  fold_left feed values h = h ++ concat (map (fun v => encode (digits v)) values).
Proof.
  revert h. induction values as [|v values IH]; intros h; simpl.
  - now rewrite app_nil_r.
  - rewrite IH. unfold feed, hashlib.update. now rewrite <- app_assoc.
Qed.

Lemma hashed_message (values : list Z) :
  hashlib.digest (fold_left feed values hashlib.sha256)
  = SHA256.sha256 (concat (map encode (map digits values))).
Proof.
  unfold hashlib.digest. rewrite fold_feed. unfold hashlib.sha256. simpl.
  now rewrite map_map.
Qed.

(** *** Little-endian value *)

Lemma weighted_sum (bs : list Z) (k : nat) :
  fold_right Z.add 0 (imap (fun i b => b * 256 ^ Z.of_nat (k + i)) bs)
  = 256 ^ Z.of_nat k * from_bytes_little bs.
Proof.
  revert k. induction bs as [|b bs IH]; intros k; simpl.
  - lia.
  - rewrite (imap_ext _ (fun i b => b * 256 ^ Z.of_nat (S k + i)) bs).
    + rewrite IH, Nat.add_0_r.
      replace (Z.of_nat (S k)) with (Z.of_nat k + 1) by lia.
      rewrite Z.pow_add_r by lia. lia.
    + intros i x _. simpl. do 2 f_equal. lia.
Qed.

Lemma from_bytes_little_value (bs : list Z) :
  from_bytes_little bs = little_endian_value bs.
Proof.
  unfold little_endian_value.
  pose proof (weighted_sum bs 0) as H. simpl in H.
  rewrite Z.mul_1_l in H. now rewrite <- H.
Qed.

(** *** Bit expansion *)

Lemma land_shiftr_bit (b : Z) (i : nat) :
  Z.land (Z.shiftr b (Z.of_nat i)) 1 = Z.b2z (Z.testbit b (Z.of_nat i)).
Proof.
  change 1 with (Z.ones 1). rewrite Z.land_ones by lia.
  change (2 ^ 1) with 2. rewrite <- Z.bit0_mod.
  rewrite Z.shiftr_spec by lia. now rewrite Z.add_0_l.
Qed.

Lemma bits_cons (b : Z) (array : list Z) :
  _bits_from_bytes (b :: array)
  = map (fun i => Z.land (Z.shiftr b (Z.of_nat i)) 1) (seq 0 8) ++ _bits_from_bytes array.
Proof. reflexivity. Qed.

Lemma bits_length (array : list Z) :
  length (_bits_from_bytes array) = (8 * length array)%nat.
Proof.
  induction array as [|b array IH]; [reflexivity|].
  rewrite bits_cons, length_app, IH, length_map, length_seq. simpl. lia.
Qed.

Lemma bits_nth (array : list Z) (i : nat) :
  (i < 8 * length array)%nat ->
  nth i (_bits_from_bytes array) 0
  = Z.b2z (Z.testbit (nth (i / 8) array 0) (Z.of_nat (i mod 8))).
Proof.
  revert i. induction array as [|b array IH]; intros i Hi; simpl in Hi; [lia|].
  rewrite bits_cons.
  destruct (Nat.lt_ge_cases i 8) as [Hlt|Hge].
  - rewrite (Nat.div_small i 8), (Nat.mod_small i 8) by lia.
    change (nth 0 (b :: array) 0) with b.
    rewrite <- land_shiftr_bit.
    do 8 (destruct i as [|i]; [reflexivity|]). lia.
  - rewrite app_nth2 by (rewrite length_map, length_seq; lia).
    rewrite length_map, length_seq, IH by lia.
    replace i with ((i - 8) + 1 * 8)%nat at 3 4 by lia.
    rewrite Nat.div_add, Nat.Div0.mod_add by lia.
    replace ((i - 8) / 8 + 1)%nat with (S ((i - 8) / 8)) by lia.
    reflexivity.
Qed.

Lemma bits_binary (array : list Z) :
  Forall (fun b => b = 0 \/ b = 1) (_bits_from_bytes array).
Proof.
  unfold _bits_from_bytes. apply List.Forall_forall. intros x Hx.
  apply in_flat_map in Hx as (b & _ & Hx).
  apply in_map_iff in Hx as (i & <- & _).
  rewrite land_shiftr_bit. destruct (Z.testbit b (Z.of_nat i)); simpl; auto.
Qed.

Lemma hashfunc_bits_length (values : list Z) :
  length (hashfunc_bits values) = 256%nat.
Proof.
  unfold hashfunc_bits. rewrite bits_length.
  unfold hashlib.digest. now rewrite sha256_length.
Qed.

End Hashing.

(** ** The decimal encoding *)

Section Decimal.

Lemma code_digit_char (d : Z) : 0 <= d <= 9 -> code (digit_char d) = 48 + d.
Proof.
  intros Hd. unfold code, digit_char.
  rewrite N_ascii_embedding by lia. lia.
Qed.

Lemma code_inj (c1 c2 : ascii) : code c1 = code c2 -> c1 = c2.
Proof.
  unfold code. intros H. apply N2Z.inj in H.
  rewrite <- (ascii_N_embedding c1), <- (ascii_N_embedding c2). now f_equal.
Qed.

Lemma decimal_value_snoc (s : list ascii) (ch : ascii) :
  decimal_value (s ++ [ch]) = 10 * decimal_value s + (code ch - 48).
Proof. unfold decimal_value. now rewrite fold_left_app. Qed.

Lemma digits_aux_acc (fuel : nat) (n : Z) (acc : list ascii) :
  digits_aux fuel n acc = digits_aux fuel n [] ++ acc.
Proof.
  revert n acc. induction fuel as [|fuel IH]; intros n acc; simpl; [reflexivity|].
  destruct (n <? 10); [reflexivity|].
  rewrite (IH _ (_ :: acc)), (IH _ [_]), <- app_assoc. reflexivity.
Qed.

(** What the digit loop produces on a number below [2 ^ fuel]. *)
Lemma digits_aux_spec (fuel : nat) (n : Z) :
  0 <= n < 2 ^ Z.of_nat fuel ->
  let s := digits_aux fuel n [] in
  Forall is_digit s
  /\ decimal_value s = n
  /\ (1 <= n -> exists ch rest, s = ch :: rest /\ code ch <> 48)
  /\ (n = 0 -> fuel <> O -> s = ["0"%char]).
Proof.
  revert n. induction fuel as [|fuel IH]; intros n Hn.
  - change (2 ^ Z.of_nat 0) with 1 in Hn. cbn [digits_aux].
    split; [constructor|]. split; [unfold decimal_value; simpl; lia|].
    split; [lia|]. intros _ Hf. now contradiction Hf.
  - cbn [digits_aux]. destruct (Z.ltb_spec n 10) as [Hlt|Hge].
    + repeat split.
      * constructor; [|constructor]. unfold is_digit. rewrite code_digit_char; lia.
      * unfold decimal_value. simpl. rewrite code_digit_char; lia.
      * intros H1. eexists _, _. split; [reflexivity|]. rewrite code_digit_char; lia.
      * intros -> _. reflexivity.
    + assert (Hq : 0 <= n / 10 < 2 ^ Z.of_nat fuel).
      { split; [apply Z.div_pos; lia|].
        apply Z.div_lt_upper_bound; [lia|].
        replace (Z.of_nat (S fuel)) with (Z.of_nat fuel + 1) in Hn by lia.
        rewrite Z.pow_add_r in Hn by lia. lia. }
      assert (H1 : 1 <= n / 10) by (apply Z.div_le_lower_bound; lia).
      destruct (IH _ Hq) as (Hdig & Hval & Hhead & _).
      pose proof (Z.mod_pos_bound n 10 ltac:(lia)) as Hm.
      rewrite digits_aux_acc. repeat split.
      * apply Forall_app. split; [exact Hdig|].
        constructor; [|constructor]. unfold is_digit. rewrite code_digit_char; lia.
      * rewrite decimal_value_snoc, Hval, code_digit_char by lia.
        rewrite (Z.div_mod n 10) at 3 by lia. lia.
      * intros _. destruct (Hhead H1) as (ch & rest & -> & Hch).
        eexists _, _. split; [reflexivity|exact Hch].
      * lia.
Qed.

Lemma digits_nat_canonical (n : Z) : 0 <= n -> canonical_decimal n (digits_nat n).
Proof.
  intros Hn. unfold digits_nat.
  assert (Hb : 0 <= n < 2 ^ Z.of_nat (S (Z.to_nat (Z.log2 n)))).
  { split; [exact Hn|].
    destruct (Z.eq_dec n 0) as [->|Hnz]; [reflexivity|].
    pose proof (Z.log2_nonneg n).
    replace (Z.of_nat (S (Z.to_nat (Z.log2 n)))) with (Z.succ (Z.log2 n)) by lia.
    apply Z.log2_spec. lia. }
  destruct (digits_aux_spec _ _ Hb) as (Hdig & Hval & Hhead & Hzero).
  destruct (Z.eq_dec n 0) as [->|Hnz].
  - rewrite Hzero by (auto; lia).
    split; [discriminate|].
    split; [constructor; [|constructor]; unfold is_digit, code; simpl; lia|].
    split; [|reflexivity].
    intros rest Hr. now inversion Hr.
  - destruct Hhead as (ch & rest & Hs & Hch); [lia|].
    rewrite Hs in *.
    split; [discriminate|]. split; [exact Hdig|]. split; [|exact Hval].
    intros rest' Hr. inversion Hr; subst. now contradiction Hch.
Qed.

Lemma digits_canonical (v : Z) : 0 <= v -> canonical_decimal v (digits v).
Proof.
  intros Hv. unfold digits.
  destruct (Z.ltb_spec v 0); [lia|]. now apply digits_nat_canonical.
Qed.

(** A string of digits that does not start with [0] denotes a positive
    number. *)
Lemma decimal_value_acc (s : list ascii) (acc : Z) :
  Forall is_digit s -> 1 <= acc ->
  1 <= fold_left (fun a ch => 10 * a + (code ch - 48)) s acc.
Proof.
  revert acc. induction s as [|ch s IH]; intros acc Hs Hacc; simpl; [exact Hacc|].
  inversion Hs; subst. apply IH; [assumption|]. unfold is_digit in *. lia.
Qed.

Lemma decimal_value_pos (ch : ascii) (rest : list ascii) :
  Forall is_digit (ch :: rest) -> code ch <> 48 -> 1 <= decimal_value (ch :: rest).
Proof.
  intros Hs Hch. inversion Hs; subst. unfold decimal_value. simpl.
  apply decimal_value_acc; [assumption|]. unfold is_digit in *. lia.
Qed.

(** A proper prefix of a canonical string is canonical, for the number
    without its last digit. *)
Lemma canonical_prefix (n : Z) (s : list ascii) (ch : ascii) :
  s <> [] -> canonical_decimal n (s ++ [ch]) ->
  canonical_decimal (decimal_value s) s /\ 1 <= decimal_value s.
Proof.
  intros Hne (_ & Hdig & Hzero & _).
  apply Forall_app in Hdig as [Hdig _].
  destruct s as [|c0 rest]; [congruence|].
  assert (Hc0 : code c0 <> 48).
  { intros Hc. assert (c0 = "0"%char) as -> by (apply code_inj; exact Hc).
    specialize (Hzero (rest ++ [ch]) eq_refl). now destruct rest. }
  split; [|now apply decimal_value_pos].
  repeat split; auto.
  intros rest' Hr. inversion Hr; subst. now contradiction Hc0.
Qed.

(** The canonical decimal string of a number is unique. *)
Lemma canonical_unique (s1 : list ascii) :
  forall (s2 : list ascii) (n : Z),
    canonical_decimal n s1 -> canonical_decimal n s2 -> s1 = s2.
Proof.
  induction s1 as [|c1 s1 IH] using rev_ind; intros s2 n H1 H2.
  - now destruct H1 as (Hne & _).
  - destruct s2 as [|c2 s2 _] using rev_ind; [now destruct H2 as (Hne & _)|].
    pose proof H1 as (_ & Hd1 & _ & Hv1). pose proof H2 as (_ & Hd2 & _ & Hv2).
    rewrite decimal_value_snoc in Hv1, Hv2.
    apply Forall_app in Hd1 as [_ Hc1]. apply Forall_app in Hd2 as [_ Hc2].
    inversion Hc1; subst. inversion Hc2; subst. unfold is_digit in *.
    assert (Hch : code c1 = code c2) by lia.
    assert (Hval : decimal_value s1 = decimal_value s2) by lia.
    apply code_inj in Hch. subst c2. f_equal.
    destruct s1 as [|a1 r1]; destruct s2 as [|a2 r2]; [reflexivity| | |].
    + destruct (canonical_prefix _ (a2 :: r2) c1 ltac:(discriminate) H2) as [_ Hp].
      rewrite <- Hval in Hp. unfold decimal_value in Hp. simpl in Hp. lia.
    + destruct (canonical_prefix _ (a1 :: r1) c1 ltac:(discriminate) H1) as [_ Hp].
      rewrite Hval in Hp. unfold decimal_value in Hp. simpl in Hp. lia.
    + destruct (canonical_prefix _ (a1 :: r1) c1 ltac:(discriminate) H1) as [Hp1 _].
      destruct (canonical_prefix _ (a2 :: r2) c1 ltac:(discriminate) H2) as [Hp2 _].
      rewrite <- Hval in Hp2. exact (IH _ _ Hp1 Hp2).
Qed.

Lemma canonical_encodings (values : list Z) (encodings : list (list ascii)) :
  Forall2 canonical_decimal values encodings -> Forall (fun v => 0 <= v) values ->
  encodings = map digits values.
Proof.
  induction 1 as [|v e values encodings Hve _ IH]; intros Hpos; [reflexivity|].
  inversion Hpos; subst. simpl. f_equal; [|now apply IH].
  eapply canonical_unique; [exact Hve|]. now apply digits_canonical.
Qed.

Lemma digits_encodings (values : list Z) :
  Forall (fun v => 0 <= v) values -> Forall2 canonical_decimal values (map digits values).
Proof.
  induction 1 as [|v values Hv _ IH]; simpl; constructor; auto.
  now apply digits_canonical.
Qed.

End Decimal.

(** ** Challenge derivation meets its specification *)

Section Challenges.

(** C5. [hashfunc] is [scalar_challenge]: on nonnegative values it
    encodes each value as its canonical decimal string, concatenates the
    encodings in argument order, hashes them with SHA-256, reads the
    digest as a little-endian unsigned integer and reduces it modulo the
    order of the group.  The specification determines the result, and
    equal inputs give equal outputs. *)
Theorem hashfunc_is_scalar_challenge (G_q : SchnorrGroup) (values : list Z) :
  Forall (fun v => 0 <= v) values ->
  scalar_challenge_spec (order G_q) values (hashfunc G_q values)
  /\ (forall c, scalar_challenge_spec (order G_q) values c -> c = hashfunc G_q values)
  /\ (forall values', values' = values -> hashfunc G_q values' = hashfunc G_q values).
Proof.
  intros Hpos.
  assert (Hh : hashfunc G_q values
               = little_endian_value
                   (SHA256.sha256 (concat (map encode (map digits values)))) mod order G_q).
  { unfold hashfunc. now rewrite hashed_message, from_bytes_little_value. }
  split; [|split].
  - exists (map digits values), (SHA256.sha256 (concat (map encode (map digits values)))).
    split; [now apply digits_encodings|]. split; [reflexivity|].
    split; [apply sha256_length|exact Hh].
  - intros c (encodings & digest & Henc & -> & _ & ->).
    rewrite (canonical_encodings _ _ Henc Hpos). now rewrite Hh.
  - now intros values' ->.
Qed.

Lemma hashfunc_is_scalar_challenge_witness :
  Forall (fun v => 0 <= v) [4; 18; 0; 12345678901234567890]
  /\ scalar_challenge_spec (order G23) [4; 18; 0; 12345678901234567890]
       (hashfunc G23 [4; 18; 0; 12345678901234567890]).
Proof.
  assert (H : Forall (fun v => 0 <= v) [4; 18; 0; 12345678901234567890]).
  { repeat (constructor; [discriminate|]). constructor. }
  split; [exact H|].
  exact (proj1 (hashfunc_is_scalar_challenge G23 _ H)).
Defined.

(** C6. [hashfunc_bits] is [bit_challenge]: same encoding and hashing,
    and the digest is expanded into exactly 256 values, each 0 or 1,
    bit [i mod 8] of byte [i / 8] at position [i]. *)
Theorem hashfunc_bits_is_bit_challenge (values : list Z) :
  Forall (fun v => 0 <= v) values ->
  bit_challenge_spec values (hashfunc_bits values)
  /\ length (hashfunc_bits values) = 256%nat
  /\ Forall (fun b => b = 0 \/ b = 1) (hashfunc_bits values)
  /\ (forall bits, bit_challenge_spec values bits -> bits = hashfunc_bits values).
Proof.
  intros Hpos.
  assert (Hspec : forall i : nat, (i < 256)%nat ->
            nth i (hashfunc_bits values) 0
            = Z.b2z (Z.testbit
                       (nth (i / 8) (SHA256.sha256 (concat (map encode (map digits values)))) 0)
                       (Z.of_nat (i mod 8)))).
  { intros i Hi. unfold hashfunc_bits. rewrite hashed_message.
    apply bits_nth. rewrite sha256_length. exact Hi. }
  split; [|split; [|split]].
  - exists (map digits values).
    split; [now apply digits_encodings|]. split; [apply hashfunc_bits_length|exact Hspec].
  - apply hashfunc_bits_length.
  - apply bits_binary.
  - intros bits (encodings & Henc & Hlen & Hbits).
    rewrite (canonical_encodings _ _ Henc Hpos) in Hbits.
    apply (nth_ext _ _ 0 0); [now rewrite hashfunc_bits_length|].
    intros i Hi. rewrite Hlen in Hi. now rewrite Hbits, Hspec.
Qed.

Lemma hashfunc_bits_is_bit_challenge_witness :
  Forall (fun v => 0 <= v) [4; 3; 4; 5; 13]
  /\ length (hashfunc_bits [4; 3; 4; 5; 13]) = 256%nat.
Proof.
  assert (H : Forall (fun v => 0 <= v) [4; 3; 4; 5; 13]).
  { repeat (constructor; [discriminate|]). constructor. }
  split; [exact H|].
  exact (proj1 (proj2 (hashfunc_bits_is_bit_challenge _ H))).
Defined.

End Challenges.

(** ** Arithmetic in a subgroup of order [q] modulo [m] *)

Lemma zpow_nonneg (modulus base e : Z) : 0 <= e -> zpow modulus base e = base ^ e.
Proof. intros He. unfold zpow. now destruct (Z.leb_spec 0 e); [|lia]. Qed.

Section GroupArithmetic.

Variables m q : Z.
Hypothesis m_gt_1 : 1 < m.
Hypothesis q_pos : 0 < q.

Variable g : Z.
Hypothesis g_order : g ^ q mod m = 1.

Lemma pow_order_multiple (k : Z) : 0 <= k -> (g ^ q) ^ k mod m = 1.
Proof.
  intros Hk. rewrite <- Z.mod_pow_l. rewrite g_order.
  rewrite Z.pow_1_l by lia. apply Z.mod_1_l; lia.
Qed.

(** Exponents of [g] count modulo [q]. *)
Lemma pow_mod_order (e : Z) : 0 <= e -> g ^ e mod m = g ^ (e mod q) mod m.
Proof.
  intros He.
  pose proof (Z.mod_pos_bound e q q_pos) as Hr.
  assert (Hk : 0 <= e / q) by (apply Z.div_pos; lia).
  rewrite (Z.div_mod e q) at 1 by lia.
  rewrite Z.pow_add_r, Z.pow_mul_r by (try apply Z.mul_nonneg_nonneg; lia).
  rewrite Zmult_mod, pow_order_multiple, Z.mul_1_l by lia.
  now rewrite Zmod_mod.
Qed.

Lemma g_coprime : Z.coprime g m.
Proof.
  unfold Z.coprime.
  assert (Hd : (Z.gcd g m | 1)).
  { assert (Hq : g ^ q = g * g ^ (q - 1)).
    { replace q with (1 + (q - 1)) at 1 by lia.
      rewrite Z.pow_add_r by lia. now rewrite Z.pow_1_r. }
    pose proof (Z.div_mod (g ^ q) m ltac:(lia)) as Hdm.
    rewrite g_order in Hdm.
    replace 1 with (g * g ^ (q - 1) - m * (g ^ q / m)) by lia.
    apply Z.divide_sub_r.
    - apply Z.divide_mul_l, Z.gcd_divide_l.
    - apply Z.divide_mul_l, Z.gcd_divide_r. }
  apply Z.divide_1_r_nonneg; [apply Z.gcd_nonneg|exact Hd].
Qed.

(** The inverse of [g] is [g ^ (q - 1)]. *)
Lemma invmod_order : Z.invmod g m mod m = g ^ (q - 1) mod m.
Proof.
  pose proof (Z.invmod_coprime' g m g_coprime) as Hinv.
  rewrite Z.mod_1_l in Hinv by lia.
  assert (Hq : g * g ^ (q - 1) = g ^ q).
  { replace q with (1 + (q - 1)) at 2 by lia.
    rewrite Z.pow_add_r by lia. now rewrite Z.pow_1_r. }
  transitivity ((Z.invmod g m * (g * g ^ (q - 1))) mod m).
  - rewrite Hq, Zmult_mod, g_order, Z.mul_1_r. now rewrite Zmod_mod.
  - rewrite Z.mul_assoc, Zmult_mod, Hinv, Z.mul_1_l. now rewrite Zmod_mod.
Qed.

(** [powmod] on an element of order [q], for any integer exponent. *)
Lemma zpow_mod_order (e : Z) : zpow m g e mod m = g ^ (e mod q) mod m.
Proof.
  unfold zpow. destruct (Z.leb_spec 0 e) as [He|He].
  - now apply pow_mod_order.
  - rewrite <- Z.mod_pow_l, invmod_order, Z.mod_pow_l.
    rewrite <- Z.pow_mul_r by lia.
    rewrite pow_mod_order by nia.
    replace ((q - 1) * - e) with (e + (- e) * q) by lia.
    now rewrite Z.mod_add by lia.
Qed.

(** The verification equation of a Chaum-Pedersen proof holds for the
    honest response. *)
Lemma dleq_equation (alpha c w : Z) :
  0 <= c -> 0 <= w < q ->
  zpow m g ((w - alpha * c) mod q) mod m * (zpow m (zpow m g alpha mod m) c mod m) mod m
  = zpow m g w mod m.
Proof.
  intros Hc Hw.
  pose proof (Z.mod_pos_bound alpha q q_pos) as Ha.
  pose proof (Z.mod_pos_bound (w - alpha * c) q q_pos) as Hres.
  rewrite (zpow_nonneg _ _ c Hc), (zpow_nonneg _ _ w) by lia.
  rewrite (zpow_nonneg _ _ ((w - alpha * c) mod q)) by lia.
  rewrite zpow_mod_order.
  rewrite Z.mod_pow_l, <- Z.pow_mul_r by lia.
  rewrite <- Zmult_mod, <- Z.pow_add_r by nia.
  rewrite pow_mod_order by nia.
  rewrite (pow_mod_order w) by lia.
  do 2 f_equal.
  rewrite Zplus_mod_idemp_l.
  rewrite Zplus_mod, (Zmult_mod_idemp_l alpha c q), <- Zplus_mod.
  f_equal. lia.
Qed.

End GroupArithmetic.

(** ** The Chaum-Pedersen proof *)

Section DLEQ.

Lemma hashfunc_range (G_q : SchnorrGroup) (values : list Z) :
  0 < q G_q -> 0 <= hashfunc G_q values < q G_q.
Proof. intros Hq. unfold hashfunc, order. now apply Z.mod_pos_bound. Qed.

Lemma powmod_order_elim (G_q : SchnorrGroup) (g : Z) :
  0 < q G_q -> powmod G_q g (q G_q) = 1 -> g ^ q G_q mod p G_q = 1.
Proof. intros Hq. unfold powmod. now rewrite zpow_nonneg by lia. Qed.

(** C4. Completeness of the Chaum-Pedersen proof: in a group of order
    [q] modulo [p], for elements [g_1], [g_2] of order [q], any secret
    [alpha] and any sampled [w] in [0, q), the transcript of
    [proof_dleq] for [g_1 ^ alpha] and [g_2 ^ alpha] is accepted by
    [verify_dleq]. *)
Theorem proof_dleq_complete (G_q : SchnorrGroup) (g_1 g_2 alpha w : Z) :
  1 < p G_q -> 0 < q G_q ->
  powmod G_q g_1 (q G_q) = 1 -> powmod G_q g_2 (q G_q) = 1 ->
  0 <= w < q G_q ->
  verify_dleq G_q
    (proof_dleq w G_q g_1 (powmod G_q g_1 alpha) g_2 (powmod G_q g_2 alpha) alpha)
    g_1 (powmod G_q g_1 alpha) g_2 (powmod G_q g_2 alpha) = true.
Proof.
  intros Hp Hq Hg1 Hg2 Hw.
  apply powmod_order_elim in Hg1, Hg2; try assumption.
  unfold verify_dleq, proof_dleq. cbv zeta.
  apply andb_true_intro. split; apply Z.eqb_eq; unfold powmod; symmetry.
  - apply (dleq_equation (p G_q) (q G_q) Hp Hq g_1 Hg1);
      [apply (hashfunc_range G_q _ Hq)|exact Hw].
  - apply (dleq_equation (p G_q) (q G_q) Hp Hq g_2 Hg2);
      [apply (hashfunc_range G_q _ Hq)|exact Hw].
Qed.

Lemma proof_dleq_complete_witness :
  (1 < p G23 /\ 0 < q G23 /\ powmod G23 4 (q G23) = 1 /\ powmod G23 9 (q G23) = 1
   /\ 0 <= 5 < q G23)
  /\ verify_dleq G23
       (proof_dleq 5 G23 4 (powmod G23 4 (-7)) 9 (powmod G23 9 (-7)) (-7))
       4 (powmod G23 4 (-7)) 9 (powmod G23 9 (-7)) = true.
Proof.
  split.
  - repeat split; try reflexivity; discriminate.
  - apply (proof_dleq_complete G23 4 9 (-7) 5); try reflexivity.
    split; [discriminate|reflexivity].
Defined.

(** Equality with a residue is congruence together with a range check. *)
Lemma eqb_mod_iff (modulus t x : Z) :
  0 < modulus ->
  (t =? x mod modulus) = true <-> 0 <= t < modulus /\ cong modulus t x.
Proof.
  intros Hm. rewrite Z.eqb_eq. unfold cong. split.
  - intros ->. split; [now apply Z.mod_pos_bound|now rewrite Zmod_mod].
  - intros (Hr & Hc). rewrite <- Hc. symmetry. now apply Z.mod_small.
Qed.

(** C7, amended. [verify_dleq] accepts [(t_1, t_2, res)] exactly when
    [t_1] and [t_2] are the residues in [0, p) of [g_1^res * h_1^c] and
    [g_2^res * h_2^c] for the recomputed challenge [c]: the congruences
    of the two equations hold and both commitments are reduced.  The
    verifier is a total function to [bool]. *)
Theorem verify_dleq_accepts_iff (G_q : SchnorrGroup) (t_1 t_2 res g_1 h_1 g_2 h_2 : Z) :
  0 < p G_q ->
  verify_dleq G_q (t_1, t_2, res) g_1 h_1 g_2 h_2 = true
  <-> (0 <= t_1 < p G_q
       /\ cong (p G_q) t_1
            (zpow (p G_q) g_1 res * zpow (p G_q) h_1 (hashfunc G_q [h_1; h_2; t_1; t_2])))
      /\ (0 <= t_2 < p G_q
          /\ cong (p G_q) t_2
               (zpow (p G_q) g_2 res * zpow (p G_q) h_2 (hashfunc G_q [h_1; h_2; t_1; t_2]))).
Proof.
  intros Hp. unfold verify_dleq, powmod.
  rewrite andb_true_iff, <- !Zmult_mod.
  now rewrite !eqb_mod_iff by exact Hp.
Qed.

Lemma verify_dleq_accepts_iff_witness :
  0 < p G23
  /\ verify_dleq G23 (proof_dleq 5 G23 4 8 9 4 7) 4 8 9 4 = true.
Proof.
  split; [reflexivity|].
  apply (verify_dleq_accepts_iff G23); [reflexivity|].
  vm_compute. repeat split; try reflexivity; discriminate.
Defined.

(** C7, as stated, fails: the commitment 58 is congruent to
    [4^7 * 8^6] modulo 23 and 8 is congruent to [9^7 * 4^6], for the
    recomputed challenge 6, yet the transcript [(58, 8, 7)] is
    rejected, because 58 is not reduced modulo 23. *)
Lemma verify_dleq_rejects_unreduced_commitment :
  hashfunc G23 [8; 4; 58; 8] = 6
  /\ cong (p G23) 58 (4 ^ 7 * 8 ^ 6)
  /\ cong (p G23) 8 (9 ^ 7 * 4 ^ 6)
  /\ verify_dleq G23 (58, 8, 7) 4 8 9 4 = false.
Proof. vm_compute. repeat split. Qed.

End DLEQ.

(** ** Knowledge of the discrete logarithm of a plaintext *)

Section PlaintextDLog.

(** C8. [verify_plaintext_dlog] accepts [(t_1, t_2, res1, res2)] exactly
    when, for the recomputed challenge, [h^res1 * y^res2] is congruent
    to [t_1 * b^challenge] and [g^res2] is congruent to
    [t_2 * a^challenge] modulo [p]. *)
Theorem verify_plaintext_dlog_accepts_iff (key : ElGamalKeypair) (c : ElGamalCiphertext)
    (h t_1 t_2 res1 res2 : Z) :
  let modulus := p (key_G_q key) in
  let challenge :=
    hashfunc (key_G_q key) [key_g key; h; key_y key; t_1; t_2; ct_a c; ct_b c] in
  verify_plaintext_dlog (t_1, t_2, res1, res2) key c h = true
  <-> cong modulus (zpow modulus h res1 * zpow modulus (key_y key) res2)
                   (t_1 * zpow modulus (ct_b c) challenge)
      /\ cong modulus (zpow modulus (key_g key) res2)
                      (t_2 * zpow modulus (ct_a c) challenge).
Proof.
  intros modulus challenge. unfold verify_plaintext_dlog, powmod, cong.
  fold modulus. fold challenge.
  rewrite andb_true_iff, !Z.eqb_eq.
  rewrite <- Zmult_mod, !Zmult_mod_idemp_r. reflexivity.
Qed.

End PlaintextDLog.


(** ** Discrete logarithm equals double discrete logarithm *)

Section DoubleDiscreteLog.

Lemma list_eqb_eq (l1 l2 : list Z) : list_eqb l1 l2 = true <-> l1 = l2.
Proof.
  revert l2. induction l1 as [|x1 l1 IH]; intros [|x2 l2]; simpl;
    try (split; [discriminate|congruence]); [tauto|].
  rewrite andb_true_iff, Z.eqb_eq, IH. split.
  - now intros [-> ->].
  - intros H. now inversion H.
Qed.

Lemma ddl_t_h_powmod (G_r : SchnorrGroup) (h A : Z) (rc : Z * Z) :
  (let '(r_i, c_i) := rc in powmod G_r h r_i * powmod G_r A c_i mod p G_r)
  = ddl_t_h G_r h A rc.
Proof. destruct rc as [r_i c_i]. unfold ddl_t_h, powmod. now rewrite <- Zmult_mod. Qed.

(** The chain of assertions is the conjunction [ddl_preconditions], and
    the commitments are [ddl_t_g] and [ddl_t_h]. *)
Lemma verify_dl_equal_ddl_unfold (c r : list Z) (G_q G_r : SchnorrGroup) (g h y A B : Z) :
  verify_dl_equal_ddl (c, r) G_q G_r g h y A B
  = if ddl_preconditions G_q G_r g h y A B
    then Ok (list_eqb c (hashfunc_bits ([g; h; y; A; B]
                                        ++ map (ddl_t_g G_q G_r g y B) (combine r c)
                                        ++ map (ddl_t_h G_r h A) (combine r c))))
    else Raise AssertionError.
Proof.
  unfold verify_dl_equal_ddl, ddl_preconditions.
  destruct (p G_q =? p G_r * 2 + 1); [|reflexivity].
  destruct (is_element G_q g); [|reflexivity].
  destruct (is_element G_q B); [|reflexivity].
  destruct (is_element G_r h); [|reflexivity].
  destruct (is_element G_r y); [|reflexivity].
  destruct (is_element G_r A); [|reflexivity].
  simpl. now rewrite (map_ext _ _ (ddl_t_h_powmod G_r h A)).
Qed.

(** C9, amended. [verify_dl_equal_ddl] accepts [(c, r)] exactly when
    the asserted preconditions hold and [c] is, element for element, the
    bit challenge of [[g; h; y; A; B]], the commitments
    [t_g_i = (g if c_i = 0 else B)^(y^r_i mod q') mod p] and the
    commitments [t_h_i = h^r_i * A^c_i mod q'], where [q'] is the
    modulus of the inner group. *)
Theorem verify_dl_equal_ddl_accepts_iff (c r : list Z) (G_q G_r : SchnorrGroup)
    (g h y A B : Z) :
  verify_dl_equal_ddl (c, r) G_q G_r g h y A B = Ok true
  <-> ddl_preconditions G_q G_r g h y A B = true
      /\ c = hashfunc_bits ([g; h; y; A; B]
                            ++ map (ddl_t_g G_q G_r g y B) (combine r c)
                            ++ map (ddl_t_h G_r h A) (combine r c)).
Proof.
  rewrite verify_dl_equal_ddl_unfold.
  destruct (ddl_preconditions G_q G_r g h y A B).
  - rewrite <- list_eqb_eq. split.
    + intros H. split; [reflexivity|]. now inversion H.
    + now intros [_ ->].
  - split; [discriminate|]. now intros [? _].
Qed.

(** C9, as stated, fails: with the inner power reduced modulo the order
    5 of the inner group instead of its modulus 11, the commitment of a
    round with [r_i = 2] and [c_i = 0] is 4 where the verifier computes
    12, and the honest transcript [ddl_example], which the verifier
    accepts, does not meet the stated condition. *)
Lemma ddl_inner_power_is_reduced_by_modulus :
  ddl_t_g G23 G11 4 4 13 (2, 0) = 12
  /\ ddl_t_g_spec G23 G11 4 4 13 (2, 0) = 4
  /\ verify_dl_equal_ddl ddl_example G23 G11 4 3 4 5 13 = Ok true
  /\ ddl_accepts_spec ddl_example G23 G11 4 3 4 5 13 = false.
Proof. vm_compute. repeat split. Qed.

(** C10. When the asserted preconditions hold, a transcript whose
    challenge list does not have exactly 256 entries is rejected: the
    recomputed challenge always has 256 entries. *)
Theorem verify_dl_equal_ddl_wrong_length (c r : list Z) (G_q G_r : SchnorrGroup)
    (g h y A B : Z) :
  ddl_preconditions G_q G_r g h y A B = true ->
  length c <> 256%nat ->
  verify_dl_equal_ddl (c, r) G_q G_r g h y A B = Ok false
  /\ length (hashfunc_bits ([g; h; y; A; B]
                            ++ map (ddl_t_g G_q G_r g y B) (combine r c)
                            ++ map (ddl_t_h G_r h A) (combine r c))) = 256%nat.
Proof.
  intros Hpre Hlen. split; [|apply hashfunc_bits_length].
  rewrite verify_dl_equal_ddl_unfold, Hpre. f_equal.
  apply not_true_is_false. intros Heq. apply list_eqb_eq in Heq.
  apply Hlen. rewrite Heq. apply hashfunc_bits_length.
Qed.

Lemma verify_dl_equal_ddl_wrong_length_witness :
  (ddl_preconditions G23 G11 4 3 4 5 13 = true /\ length [1; 0] <> 256%nat)
  /\ verify_dl_equal_ddl ([1; 0], [3; 2; 4]) G23 G11 4 3 4 5 13 = Ok false.
Proof.
  split; [split; [reflexivity|discriminate]|].
  apply (verify_dl_equal_ddl_wrong_length [1; 0] [3; 2; 4] G23 G11 4 3 4 5 13);
    [reflexivity|discriminate].
Defined.

End DoubleDiscreteLog.

(** ** The disjunctive proof: verifier *)

Section ORVerifier.

Lemma or_lengths_agree_bool (t : list (Z * Z)) (res challenges : list Z)
    (c_prime : list ElGamalCiphertext) :
  ((length challenges =? length res)%nat
   && (length res =? length t)%nat
   && (length t =? length c_prime)%nat) = true
  <-> or_lengths_agree (t, res, challenges) c_prime.
Proof.
  unfold or_lengths_agree. rewrite !andb_true_iff, !Nat.eqb_eq. tauto.
Qed.

Lemma verify_or_returns (proof : PlaintextEqualityORProof) (key : ElGamalKeypair)
    (c : ElGamalCiphertext) (c_prime : list ElGamalCiphertext) :
  or_lengths_agree proof c_prime ->
  exists b, verify_plaintext_equality_or proof key c c_prime = Ok b.
Proof.
  destruct proof as [[t res] challenges]. intros H.
  apply or_lengths_agree_bool in H.
  unfold verify_plaintext_equality_or. rewrite H. cbn [Py.assert Py.bind]. eauto.
Qed.

Lemma verify_or_raises (proof : PlaintextEqualityORProof) (key : ElGamalKeypair)
    (c : ElGamalCiphertext) (c_prime : list ElGamalCiphertext) :
  ~ or_lengths_agree proof c_prime ->
  verify_plaintext_equality_or proof key c c_prime = Raise AssertionError.
Proof.
  destruct proof as [[t res] challenges]. intros H.
  rewrite <- or_lengths_agree_bool in H. apply not_true_is_false in H.
  unfold verify_plaintext_equality_or. now rewrite H.
Qed.

Lemma all_map_both {A : Type} (f1 f2 h : A -> bool) (l : list A) :
  (forall x, f1 x && f2 x = h x) ->
  all (map f1 l) && all (map f2 l) = forallb h l.
Proof.
  intros Hh. unfold all. induction l as [|x l IH]; simpl; [reflexivity|].
  rewrite <- IH, <- Hh. destruct (f1 x), (f2 x); simpl; try reflexivity;
    now rewrite andb_false_r.
Qed.

(** With lists of equal lengths, the verifier returns the conjunction
    of the sum check, modulo [p], and of the two equations of every
    row. *)
Lemma verify_or_unfold (t : list (Z * Z)) (res challenges : list Z)
    (key : ElGamalKeypair) (c : ElGamalCiphertext) (c_prime : list ElGamalCiphertext) :
  or_lengths_agree (t, res, challenges) c_prime ->
  verify_plaintext_equality_or (t, res, challenges) key c c_prime
  = Ok ((hashfunc (key_G_q key) (or_hash_input c c_prime (map fst t) (map snd t))
         =? Py.sum challenges mod p (key_G_q key))
        && forallb (or_row_holds key c) (or_rows (t, res, challenges) c_prime)).
Proof.
  intros H. apply or_lengths_agree_bool in H.
  unfold verify_plaintext_equality_or. rewrite H. cbn [Py.assert Py.bind].
  rewrite <- andb_assoc. unfold or_rows.
  rewrite (all_map_both _ _ (or_row_holds key c)); [reflexivity|].
  intros [[[ti1ti2 res_i] challenge_i] c_prime_i]. reflexivity.
Qed.

(** A failed sum check or a failed equation is the value [false]. *)
Lemma verify_or_rejects (t : list (Z * Z)) (res challenges : list Z)
    (key : ElGamalKeypair) (c : ElGamalCiphertext) (c_prime : list ElGamalCiphertext) :
  or_lengths_agree (t, res, challenges) c_prime ->
  hashfunc (key_G_q key) (or_hash_input c c_prime (map fst t) (map snd t))
    <> Py.sum challenges mod p (key_G_q key)
  \/ Exists (fun row => or_row_holds key c row = false)
            (or_rows (t, res, challenges) c_prime) ->
  verify_plaintext_equality_or (t, res, challenges) key c c_prime = Ok false.
Proof.
  intros H Hfail. rewrite (verify_or_unfold _ _ _ _ _ _ H). f_equal.
  destruct Hfail as [Hsum|Hrow].
  - apply Z.eqb_neq in Hsum. now rewrite Hsum.
  - apply andb_false_iff. right.
    apply List.Exists_exists in Hrow as (row & Hin & Hrow).
    apply not_true_is_false. intros Hall.
    rewrite forallb_forall in Hall. rewrite (Hall row Hin) in Hrow. discriminate.
Qed.

Lemma verify_or_sum_check (t : list (Z * Z)) (res challenges : list Z)
    (key : ElGamalKeypair) (c : ElGamalCiphertext) (c_prime : list ElGamalCiphertext) :
  or_lengths_agree (t, res, challenges) c_prime ->
  hashfunc (key_G_q key) (or_hash_input c c_prime (map fst t) (map snd t))
    <> Py.sum challenges mod p (key_G_q key) ->
  verify_plaintext_equality_or (t, res, challenges) key c c_prime = Ok false.
Proof. intros H Hsum. apply verify_or_rejects; auto. Qed.

(** C1, on the code.  The verifier accepts the transcript
    [([(8, 13)], [7], [33])] for the ciphertexts [(18, 3)] of 9 and
    [(3, 9)] of 2: the master challenge is 10, the only sub-challenge 33
    is 10 modulo [p = 23] but 0 modulo [q = 11].  The prover, run with
    the real index 1, returns the sub-challenge [(7 - 8) mod 23 = 22]
    where reduction modulo [q] gives 10. *)
Theorem or_proof_binds_challenges_modulo_p :
  (enc23 9 3 = {| ct_G_q := G23; ct_a := 18; ct_b := 3 |}
   /\ enc23 2 4 = {| ct_G_q := G23; ct_a := 3; ct_b := 9 |}
   /\ hashfunc G23 (or_hash_input (enc23 9 3) [enc23 2 4] [8] [13]) = 10
   /\ verify_plaintext_equality_or ([(8, 13)], [7], [33]) key23 (enc23 9 3) [enc23 2 4]
      = Ok true
   /\ Py.sum [33] mod p G23 = 10
   /\ Py.sum [33] mod q G23 = 0)
  /\ (proof_plaintext_equality_or 7 sim23 key23 (enc23 9 3) 3
        [enc23 2 4; enc23 9 8; enc23 3 1] 1 8
      = Ok ([(Some 12, Some 16); (Some 8, Some 13); (Some 12, Some 6)],
            [Some 2; Some 7; Some 4], [Some 3; Some 22; Some 5])
      /\ hashfunc G23 (or_hash_input (enc23 9 3) [enc23 2 4; enc23 9 8; enc23 3 1]
                         [12; 8; 12] [16; 13; 6]) = 7
      /\ (7 - (3 + 5)) mod p G23 = 22
      /\ (7 - (3 + 5)) mod q G23 = 10).
Proof. vm_compute. repeat split. Qed.

End ORVerifier.

(** ** What the verifiers do on malformed input *)

Section ErrorBehaviour.

(** C2, as stated, fails: a transcript whose list of challenges is
    shorter than the list of alternatives makes
    [verify_plaintext_equality_or] raise [AssertionError]. *)
Lemma verify_or_raises_on_length_mismatch :
  verify_plaintext_equality_or ([(8, 13)], [7], []) key23 (enc23 9 3) [enc23 2 4]
  = Raise AssertionError.
Proof. vm_compute. reflexivity. Qed.

(** C2, amended. [verify_plaintext_equality_or] raises
    [AssertionError] when the lengths of [t], [res], [challenges] and
    [c_prime] are not all equal, and returns a boolean when they are,
    [false] if the sum check or an equation of a row fails.  [verify_dl_equal_ddl] raises
    [AssertionError] when an asserted precondition on the groups fails,
    and returns a boolean for every transcript when they hold. *)
Theorem verify_functions_raise_or_return :
  (forall (t : list (Z * Z)) (res challenges : list Z) (key : ElGamalKeypair)
          (c : ElGamalCiphertext) (c_prime : list ElGamalCiphertext),
      (or_lengths_agree (t, res, challenges) c_prime ->
       exists b, verify_plaintext_equality_or (t, res, challenges) key c c_prime = Ok b)
      /\ (~ or_lengths_agree (t, res, challenges) c_prime ->
          verify_plaintext_equality_or (t, res, challenges) key c c_prime
          = Raise AssertionError)
      /\ (or_lengths_agree (t, res, challenges) c_prime ->
          hashfunc (key_G_q key) (or_hash_input c c_prime (map fst t) (map snd t))
            <> Py.sum challenges mod p (key_G_q key)
          \/ Exists (fun row => or_row_holds key c row = false)
                    (or_rows (t, res, challenges) c_prime) ->
          verify_plaintext_equality_or (t, res, challenges) key c c_prime = Ok false))
  /\ (forall (proof : DLEqualDoubleDLProof) (G_q G_r : SchnorrGroup) (g h y A B : Z),
        (ddl_preconditions G_q G_r g h y A B = true ->
         exists b, verify_dl_equal_ddl proof G_q G_r g h y A B = Ok b)
        /\ (ddl_preconditions G_q G_r g h y A B = false ->
            verify_dl_equal_ddl proof G_q G_r g h y A B = Raise AssertionError)).
Proof.
  split.
  - intros t res challenges key c c_prime. split; [|split].
    + apply verify_or_returns.
    + apply verify_or_raises.
    + apply verify_or_rejects.
  - intros [c r] G_q G_r g h y A B.
    rewrite verify_dl_equal_ddl_unfold. split; intros ->; eauto.
Qed.

Lemma verify_functions_raise_or_return_witness :
  ~ or_lengths_agree ([(8, 13)], [7], []) [enc23 2 4]
  /\ verify_plaintext_equality_or ([(8, 13)], [7], []) key23 (enc23 9 3) [enc23 2 4]
     = Raise AssertionError.
Proof.
  assert (H : ~ or_lengths_agree ([(8, 13)], [7], []) [enc23 2 4]).
  { intros [H _]. discriminate H. }
  split; [exact H|].
  exact (proj1 (proj2 (proj1 verify_functions_raise_or_return
                         [(8, 13)] [7] [] key23 (enc23 9 3) [enc23 2 4])) H).
Defined.

End ErrorBehaviour.

(** ** The disjunctive proof: prover *)

Section ORProver.

(** *** Python sequences *)

Lemma index_in_range (len : nat) (j : Z) :
  - Z.of_nat len <= j < Z.of_nat len ->
  exists k : nat,
    Py.index len j = Ok k /\ (k < len)%nat
    /\ (0 <= j -> Z.of_nat k = j) /\ (j < 0 -> Z.of_nat k = Z.of_nat len + j).
Proof.
  intros Hj. unfold Py.index.
  destruct (Z.leb_spec 0 j) as [H0|H0]; destruct (Z.ltb_spec j (Z.of_nat len)); try lia;
    simpl.
  - exists (Z.to_nat j). repeat split; lia.
  - destruct (Z.leb_spec (- Z.of_nat len) j); destruct (Z.ltb_spec j 0); try lia; simpl.
    exists (Z.to_nat (Z.of_nat len + j)). repeat split; lia.
Qed.

Lemma index_out_of_range (len : nat) (j : Z) :
  Z.of_nat len <= j \/ j < - Z.of_nat len -> Py.index len j = Raise IndexError.
Proof.
  intros Hj. unfold Py.index.
  destruct (Z.leb_spec 0 j); destruct (Z.ltb_spec j (Z.of_nat len)); try lia; simpl;
    destruct (Z.leb_spec (- Z.of_nat len) j); destruct (Z.ltb_spec j 0); try lia;
    reflexivity.
Qed.

Lemma the_ints_filled (e : exn) (l : list (option Z)) :
  Forall is_Some l -> the_ints e l = Ok (map (default 0) l).
Proof.
  induction 1 as [|v l [n ->] _ IH]; simpl; [reflexivity|]. now rewrite IH.
Qed.

Lemma lookup_map {A B : Type} (f : A -> B) (l : list A) (i : nat) :
  map f l !! i = option_map f (l !! i).
Proof.
  revert i. induction l as [|x l IH]; intros [|i]; simpl; auto.
Qed.

Lemma map_insert {A B : Type} (f : A -> B) (l : list A) (i : nat) (x : A) :
  map f (<[i := x]> l) = <[i := f x]> (map f l).
Proof.
  revert i. induction l as [|y l IH]; intros [|i]; simpl; auto. now rewrite IH.
Qed.

Lemma sum_acc (l : list Z) (a : Z) : fold_left Z.add l a = a + Py.sum l.
Proof.
  unfold Py.sum. revert a. induction l as [|x l IH]; intros a; simpl; [lia|].
  rewrite (IH (a + x)), (IH (0 + x)). lia.
Qed.

Lemma sum_insert (l : list Z) (i : nat) (x v : Z) :
  l !! i = Some x -> Py.sum (<[i := v]> l) = Py.sum l - x + v.
Proof.
  revert i. induction l as [|y l IH]; intros [|i] Hi; simpl in Hi; try discriminate.
  - inversion Hi; subst. unfold Py.sum. simpl. rewrite !sum_acc. lia.
  - change (<[S i := v]> (y :: l)) with (y :: <[i := v]> l).
    unfold Py.sum. simpl. rewrite !sum_acc, (IH _ Hi). lia.
Qed.

Lemma combine_snoc {A B : Type} (l1 : list A) (l2 : list B) (a : A) (b : B) :
  length l1 = length l2 -> combine (l1 ++ [a]) (l2 ++ [b]) = combine l1 l2 ++ [(a, b)].
Proof.
  revert l2. induction l1 as [|x l1 IH]; intros [|y l2] Hlen; simpl in *;
    try discriminate; [reflexivity|].
  f_equal. apply IH. lia.
Qed.

Lemma in_combine_seq {A : Type} (l : list A) (start i : nat) (v : A) :
  In (i, v) (combine (seq start (length l)) l) ->
  (start <= i)%nat /\ l !! (i - start)%nat = Some v.
Proof.
  revert start. induction l as [|x l IH]; intros start Hin; simpl in Hin; [contradiction|].
  destruct Hin as [Heq|Hin].
  - inversion Heq; subst. rewrite Nat.sub_diag. split; [lia|reflexivity].
  - apply IH in Hin as [Hle Hl]. split; [lia|].
    replace (i - start)%nat with (S (i - S start)) by lia. exact Hl.
Qed.

Lemma snd_combine_seq {A : Type} (l : list A) (start : nat) :
  map snd (combine (seq start (length l)) l) = l.
Proof.
  revert start. induction l as [|x l IH]; intros start; simpl; [reflexivity|].
  now rewrite IH.
Qed.

Lemma filter_all {A : Type} (f : A -> bool) (l : list A) :
  (forall x, In x l -> f x = true) -> List.filter f l = l.
Proof.
  induction l as [|x l IH]; intros H; simpl; [reflexivity|].
  rewrite (H x) by now left. f_equal. apply IH. intros y Hy. apply H. now right.
Qed.

(** *** The simulation loop *)

Variable key : ElGamalKeypair.
Variables a_inv b_inv : Z.
Variable sim : nat -> Z * Z.
Variable j : Z.

(** After the loop over [cs], every index below [length cs] other than
    [j] holds a simulated sub-proof, and the other positions are
    untouched. *)
Lemma simulate_loop (cs : list ElGamalCiphertext)
    (t0 : list (option Z * option Z)) (res0 ch0 : list (option Z)) :
  (length cs <= length t0)%nat ->
  (length cs <= length res0)%nat ->
  (length cs <= length ch0)%nat ->
  exists t res ch,
    fold_left (simulate key a_inv b_inv sim j) (combine (seq 0 (length cs)) cs)
              (t0, res0, ch0) = (t, res, ch)
    /\ length t = length t0 /\ length res = length res0 /\ length ch = length ch0
    /\ (forall i : nat, (i < length cs)%nat -> Z.of_nat i <> j ->
          (exists x y, t !! i = Some (Some x, Some y))
          /\ res !! i = Some (Some (fst (sim i)))
          /\ ch !! i = Some (Some (snd (sim i))))
    /\ (forall i : nat, (length cs <= i)%nat \/ Z.of_nat i = j ->
          t !! i = t0 !! i /\ res !! i = res0 !! i /\ ch !! i = ch0 !! i).
Proof.
  induction cs as [|c' cs IH] using rev_ind; intros Ht Hres Hch.
  - exists t0, res0, ch0. simpl. split; [reflexivity|]. do 3 (split; [reflexivity|]).
    split; [intros i Hi; lia|intros i _; auto].
  - rewrite length_app in *. simpl in Ht, Hres, Hch.
    replace (length cs + length [c'])%nat with (S (length cs)) by (simpl; lia).
    rewrite seq_S, combine_snoc, fold_left_app by now rewrite length_seq.
    destruct IH as (t & res & ch & -> & Hlt & Hlres & Hlch & Hfill & Hkeep); try lia.
    simpl. destruct (Z.eqb_spec (Z.of_nat (length cs)) j) as [Heq|Hne].
    + exists t, res, ch. split; [reflexivity|]. do 3 (split; [assumption|]). split.
      * intros i Hi Hij. apply Hfill; [|exact Hij].
        destruct (Nat.eq_dec i (length cs)); [congruence|lia].
      * intros i Hi. apply Hkeep. lia.
    + destruct (sim (length cs)) as [res_i challenge_i] eqn:Hsim.
      eexists _, _, _. split; [reflexivity|].
      rewrite !length_insert. do 3 (split; [assumption|]). split.
      * intros i Hi Hij. destruct (Nat.eq_dec i (length cs)) as [->|Hi'].
        -- rewrite Hsim. simpl. split; [|split].
           ++ rewrite list_lookup_insert_eq by lia. eauto.
           ++ now rewrite list_lookup_insert_eq by lia.
           ++ now rewrite list_lookup_insert_eq by lia.
        -- rewrite !list_lookup_insert_ne by auto. apply Hfill; [lia|assumption].
      * intros i Hi. rewrite !list_lookup_insert_ne by lia.
        apply Hkeep. lia.
Qed.

End ORProver.

Section ORProverRun.

Variables (w_j : Z) (sim : nat -> Z * Z) (key : ElGamalKeypair).
Variables (c : ElGamalCiphertext) (r : Z) (c_prime : list ElGamalCiphertext).
Variables (j r_j : Z).

Let G_q := key_G_q key.

Lemma sum_others_filled (challenges : list (option Z)) :
  (forall (i : nat) v, challenges !! i = Some v -> Z.of_nat i <> j -> is_Some v) ->
  exists others,
    sum_others challenges j = Ok others
    /\ (j < 0 -> others = Py.sum (map (default 0) challenges)).
Proof.
  intros Hfill. unfold sum_others.
  set (keep := fun ic : nat * option Z => negb (Z.of_nat (fst ic) =? j)).
  set (all_pairs := combine (seq 0 (length challenges)) challenges).
  assert (Hkept : Forall is_Some (map snd (List.filter keep all_pairs))).
  { apply List.Forall_forall. intros v Hin.
    apply in_map_iff in Hin as ([i v'] & Hv & Hin). simpl in Hv. subst v'.
    apply filter_In in Hin as [Hin Hkeep].
    apply in_combine_seq in Hin as [_ Hl]. rewrite Nat.sub_0_r in Hl.
    apply (Hfill i v Hl). unfold keep in Hkeep. simpl in Hkeep.
    apply negb_true_iff in Hkeep. now apply Z.eqb_neq. }
  rewrite (the_ints_filled _ _ Hkept). cbn [Py.bind].
  eexists. split; [reflexivity|]. intros Hneg.
  rewrite filter_all.
  - unfold all_pairs. now rewrite snd_combine_seq.
  - intros [i v] _. unfold keep. simpl. apply negb_true_iff, Z.eqb_neq. lia.
Qed.

(** The run of the prover on an index that Python accepts. *)
Lemma or_prover_run :
  - Z.of_nat (length c_prime) <= j < Z.of_nat (length c_prime) ->
  exists (k : nat) t res challenges others,
    Py.index (length c_prime) j = Ok k
    /\ (k < length c_prime)%nat
    /\ length t = length c_prime
    /\ length res = length c_prime
    /\ length challenges = length c_prime
    /\ Forall filled t
    /\ (forall i : nat, (i < length c_prime)%nat -> Z.of_nat i <> j ->
          res !! i = Some (Some (fst (sim i)))
          /\ challenges !! i = Some (Some (snd (sim i))))
    /\ (j < 0 -> others = Py.sum (map (default 0) challenges))
    /\ let challenge_j :=
         (hashfunc G_q (or_hash_input c c_prime (map (default 0) (map fst t))
                                      (map (default 0) (map snd t)))
          - others) mod p G_q in
       proof_plaintext_equality_or w_j sim key c r c_prime j r_j
       = Ok (t,
             <[k := Some ((w_j - (r_j - r) * challenge_j) mod order G_q)]> res,
             <[k := Some challenge_j]> challenges).
Proof.
  intros Hj.
  destruct (index_in_range _ _ Hj) as (k & Hk & Hlt & Hpos & Hneg).
  unfold proof_plaintext_equality_or, Py.setitem. fold G_q.
  rewrite repeat_length, Hk. cbn [Py.bind].
  set (t0 := <[k := _]> (repeat (None, None) (length c_prime))).
  destruct (simulate_loop key (powmod G_q (ct_a c) (-1)) (powmod G_q (ct_b c) (-1)) sim j
              c_prime t0 (repeat None (length c_prime)) (repeat None (length c_prime)))
    as (t & res & ch & -> & Hlt0 & Hlres & Hlch & Hfill & Hkeep).
  { unfold t0. rewrite length_insert, repeat_length. lia. }
  { rewrite repeat_length. lia. }
  { rewrite repeat_length. lia. }
  unfold t0 in Hlt0. rewrite length_insert, repeat_length in Hlt0.
  rewrite repeat_length in Hlres, Hlch.
  assert (Ht : Forall filled t).
  { apply Forall_lookup_2. intros i x Hx.
    pose proof (lookup_lt_Some _ _ _ Hx) as Hi.
    destruct (Z.eq_dec (Z.of_nat i) j) as [Hij|Hij].
    - destruct (Hkeep i (or_intror Hij)) as (Hti & _).
      assert (i = k) as -> by lia.
      rewrite Hti in Hx. unfold t0 in Hx.
      rewrite list_lookup_insert_eq in Hx by (rewrite repeat_length; lia).
      inversion Hx. split; simpl; eauto.
    - destruct (Hfill i ltac:(lia) Hij) as ((x1 & x2 & Hti) & _).
      rewrite Hti in Hx. inversion Hx. split; simpl; eauto. }
  assert (Ht1 : Forall is_Some (map fst t)).
  { apply List.Forall_map. eapply List.Forall_impl; [|exact Ht]. now intros ti [? _]. }
  assert (Ht2 : Forall is_Some (map snd t)).
  { apply List.Forall_map. eapply List.Forall_impl; [|exact Ht]. now intros ti [_ ?]. }
  rewrite (the_ints_filled _ _ Ht1), (the_ints_filled _ _ Ht2). cbn [Py.bind].
  destruct (sum_others_filled ch) as (others & -> & Hothers).
  { intros i v Hv Hij. pose proof (lookup_lt_Some _ _ _ Hv) as Hi.
    destruct (Hfill i ltac:(lia) Hij) as (_ & _ & Hc). rewrite Hc in Hv.
    inversion Hv. eauto. }
  cbn [Py.bind]. rewrite Hlch, Hk. cbn [Py.bind]. rewrite Hlres, Hk. cbn [Py.bind].
  exists k, t, res, ch, others.
  repeat (split; [first [assumption|reflexivity]|]).
  split; [|split; [exact Hothers|reflexivity]].
  intros i Hi Hij. destruct (Hfill i Hi Hij) as (_ & Hr & Hc). now split.
Qed.

End ORProverRun.

Section ORProverIndex.

(** The sum check of the verifier fails once the sub-challenge [ck] that
    it replaces is not zero. *)
Lemma binding_broken (modulus master others ck : Z) :
  0 <= master < modulus -> 0 < ck < modulus ->
  master <> (others - ck + (master - others) mod modulus) mod modulus.
Proof.
  intros Hm Hck. rewrite Zplus_mod_idemp_r.
  replace (others - ck + (master - others)) with (master - ck) by lia.
  destruct (Z_lt_le_dec master ck) as [Hlt|Hle].
  - rewrite <- (Z.mod_add _ 1) by lia. rewrite Z.mod_small by lia. lia.
  - rewrite Z.mod_small by lia. lia.
Qed.

Lemma transcript_fst (t : list (option Z * option Z)) :
  map fst (map (fun ti => (default 0 (fst ti), default 0 (snd ti))) t)
  = map (default 0) (map fst t).
Proof. rewrite !map_map. reflexivity. Qed.

Lemma transcript_snd (t : list (option Z * option Z)) :
  map snd (map (fun ti => (default 0 (fst ti), default 0 (snd ti))) t)
  = map (default 0) (map snd t).
Proof. rewrite !map_map. reflexivity. Qed.

(** C3, as stated, fails: with one alternative, the index 1 is out of
    range and the prover raises [IndexError]. *)
Lemma proof_or_raises_on_large_index :
  proof_plaintext_equality_or 7 sim23 key23 (enc23 9 3) 3 [enc23 9 8] 1 8
  = Raise IndexError.
Proof. vm_compute. reflexivity. Qed.

(** C3, amended. Let [n] be the number of alternatives.  For [j >= n]
    or [j < -n] the prover raises [IndexError].  For [-n <= j < n] it
    returns a transcript of three lists of length [n] with every
    position filled.  For [-n <= j < 0], where Python addresses position
    [n + j], the verifier rejects that transcript whenever the challenge
    sampled for position [n + j] is not zero. *)
Theorem proof_plaintext_equality_or_index (w_j : Z) (sim : nat -> Z * Z)
    (key : ElGamalKeypair) (c : ElGamalCiphertext) (r : Z)
    (c_prime : list ElGamalCiphertext) (j r_j : Z) :
  let n := Z.of_nat (length c_prime) in
  let G_q := key_G_q key in
  (n <= j \/ j < - n ->
   proof_plaintext_equality_or w_j sim key c r c_prime j r_j = Raise IndexError)
  /\ (- n <= j < n ->
      exists t res challenges,
        proof_plaintext_equality_or w_j sim key c r c_prime j r_j
        = Ok (t, res, challenges)
        /\ length t = length c_prime
        /\ length res = length c_prime
        /\ length challenges = length c_prime
        /\ Forall filled t /\ Forall is_Some res /\ Forall is_Some challenges)
  /\ (- n <= j < 0 ->
      0 < q G_q <= p G_q ->
      0 < snd (sim (Z.to_nat (n + j))) < q G_q ->
      exists st,
        proof_plaintext_equality_or w_j sim key c r c_prime j r_j = Ok st
        /\ verify_plaintext_equality_or (transcript_of st) key c c_prime = Ok false).
Proof.
  intros n G_q. split; [|split].
  - intros Hj. unfold proof_plaintext_equality_or, Py.setitem.
    rewrite repeat_length, (index_out_of_range _ _ Hj). reflexivity.
  - intros Hj.
    destruct (or_prover_run w_j sim key c r c_prime j r_j Hj)
      as (k & t & res & ch & others & Hk & Hlt & Hlt' & Hlres & Hlch & Ht & Hfill & _ & ->).
    destruct (index_in_range _ _ Hj) as (k' & Hk' & _ & Hpos & Hneg).
    rewrite Hk in Hk'. inversion Hk'; subst k'.
    assert (Hother : forall i : nat, (i < length c_prime)%nat -> i <> k -> Z.of_nat i <> j)
      by lia.
    eexists _, _, _. split; [reflexivity|].
    rewrite !length_insert. do 3 (split; [assumption|]). split; [exact Ht|].
    split; apply Forall_lookup_2; intros i x Hx;
      pose proof (lookup_lt_Some _ _ _ Hx) as Hi; rewrite length_insert in Hi;
      (destruct (Nat.eq_dec i k) as [->|Hik];
       [rewrite list_lookup_insert_eq in Hx by lia; inversion Hx; eauto
       |rewrite list_lookup_insert_ne in Hx by auto;
        destruct (Hfill i ltac:(lia) (Hother i ltac:(lia) Hik)) as [Hr Hc];
        rewrite ?Hr, ?Hc in Hx; inversion Hx; eauto]).
  - intros Hj Hq Hck.
    destruct (or_prover_run w_j sim key c r c_prime j r_j ltac:(lia))
      as (k & t & res & ch & others & Hk & Hlt & Hlt' & Hlres & Hlch & Ht & Hfill
          & Hothers & ->).
    destruct (index_in_range (length c_prime) j ltac:(lia)) as (k' & Hk' & _ & _ & Hneg).
    rewrite Hk in Hk'. inversion Hk'; subst k'.
    specialize (Hneg ltac:(lia)). specialize (Hothers ltac:(lia)).
    fold n in Hneg. replace (Z.to_nat (n + j)) with k in Hck by lia.
    eexists. split; [reflexivity|].
    unfold transcript_of. apply verify_or_sum_check.
    + unfold or_lengths_agree. rewrite !length_map, !length_insert. lia.
    + rewrite transcript_fst, transcript_snd, map_insert. cbn [default].
      destruct (Hfill k Hlt ltac:(lia)) as [_ Hc].
      rewrite (sum_insert _ _ (snd (sim k))) by (rewrite lookup_map, Hc; reflexivity).
      rewrite <- Hothers. fold G_q.
      apply binding_broken; [|lia].
      pose proof (hashfunc_range G_q
                    (or_hash_input c c_prime (map (default 0) (map fst t))
                                   (map (default 0) (map snd t))) ltac:(lia)).
      lia.
Qed.

Lemma proof_plaintext_equality_or_index_witness :
  (- 3 <= -2 < 0 /\ 0 < q G23 <= p G23 /\ 0 < snd (sim23 1) < q G23)
  /\ exists st,
       proof_plaintext_equality_or 7 sim23 key23 (enc23 9 3) 3
         [enc23 2 4; enc23 9 8; enc23 3 1] (-2) 8 = Ok st
       /\ verify_plaintext_equality_or (transcript_of st) key23 (enc23 9 3)
            [enc23 2 4; enc23 9 8; enc23 3 1] = Ok false.
Proof.
  split; [vm_compute; repeat split; discriminate|].
  apply (proj2 (proj2 (proof_plaintext_equality_or_index 7 sim23 key23 (enc23 9 3) 3
                         [enc23 2 4; enc23 9 8; enc23 3 1] (-2) 8)));
    vm_compute; repeat split; discriminate.
Defined.

(** With the index [-1] and sampled values that repeat the real
    commitment, the transcript is even accepted. *)
Example proof_or_negative_index_may_verify :
  exists st,
    proof_plaintext_equality_or 7 sim_zero key23 (enc23 9 3) 3 [enc23 9 8] (-1) 8 = Ok st
    /\ verify_plaintext_equality_or (transcript_of st) key23 (enc23 9 3) [enc23 9 8]
       = Ok true.
Proof. exists ([(Some 8, Some 13)], [Some 10], [Some 6]). vm_compute. repeat split. Qed.

End ORProverIndex.

(** * Further properties of the proofs *)

(** ** More arithmetic in a subgroup of order [q] modulo [m] *)

Section OrderArithmetic.

Variables m q : Z.
Hypothesis m_gt_1 : 1 < m.
Hypothesis q_pos : 0 < q.

(** Powers of an element of order [q] with exponents that agree modulo
    [q] agree modulo [m]. *)
Lemma pow_cong (g e1 e2 : Z) :
  g ^ q mod m = 1 -> 0 <= e1 -> 0 <= e2 -> e1 mod q = e2 mod q ->
  g ^ e1 mod m = g ^ e2 mod m.
Proof.
  intros Hg H1 H2 He.
  rewrite (pow_mod_order m q m_gt_1 q_pos g Hg e1 H1).
  rewrite (pow_mod_order m q m_gt_1 q_pos g Hg e2 H2).
  now rewrite He.
Qed.

Lemma powmod_canonical (g e : Z) :
  g ^ q mod m = 1 -> zpow m g e mod m = g ^ (e mod q) mod m.
Proof. intros Hg. exact (zpow_mod_order m q m_gt_1 q_pos g Hg e). Qed.

Lemma pow_order_add (g e1 e2 : Z) :
  g ^ q mod m = 1 ->
  (g ^ (e1 mod q) mod m * (g ^ (e2 mod q) mod m)) mod m = g ^ ((e1 + e2) mod q) mod m.
Proof.
  intros Hg.
  pose proof (Z.mod_pos_bound e1 q q_pos). pose proof (Z.mod_pos_bound e2 q q_pos).
  rewrite <- Zmult_mod, <- Z.pow_add_r by lia.
  apply (pow_cong g _ _ Hg); [lia|apply Z.mod_pos_bound; lia|].
  now rewrite Zmod_mod, <- Zplus_mod.
Qed.

Lemma pow_order_pow (g e c : Z) :
  g ^ q mod m = 1 -> 0 <= c ->
  (g ^ (e mod q) mod m) ^ c mod m = g ^ ((e * c) mod q) mod m.
Proof.
  intros Hg Hc. pose proof (Z.mod_pos_bound e q q_pos).
  rewrite Z.mod_pow_l, <- Z.pow_mul_r by lia.
  apply (pow_cong g _ _ Hg); [nia|apply Z.mod_pos_bound; lia|].
  now rewrite Zmod_mod, Zmult_mod_idemp_l.
Qed.

(** A power of an element of order [q] has order [q] again. *)
Lemma pow_order_closed (g e : Z) :
  g ^ q mod m = 1 -> (g ^ (e mod q) mod m) ^ q mod m = 1.
Proof.
  intros Hg. rewrite pow_order_pow by (try assumption; lia).
  rewrite Z.mod_mul by lia. rewrite Z.pow_0_r. apply Z.mod_1_l. lia.
Qed.

(** The product of two elements of order [q] has order [q]. *)
Lemma mul_order_closed (x y : Z) :
  x ^ q mod m = 1 -> y ^ q mod m = 1 -> (x * y mod m) ^ q mod m = 1.
Proof.
  intros Hx Hy. rewrite Z.mod_pow_l, Z.pow_mul_l, Zmult_mod, Hx, Hy.
  apply Z.mod_1_l. lia.
Qed.

(** An element with a right inverse [u] has [Z.invmod] congruent to [u]. *)
Lemma invmod_unique (b u : Z) :
  (b * u) mod m = 1 -> Z.invmod b m mod m = u mod m.
Proof.
  intros Hbu.
  assert (Hco : Z.coprime b m).
  { unfold Z.coprime. apply Z.divide_1_r_nonneg; [apply Z.gcd_nonneg|].
    pose proof (Z.div_mod (b * u) m ltac:(lia)) as Hdm. rewrite Hbu in Hdm.
    replace 1 with (b * u - m * (b * u / m)) by lia.
    apply Z.divide_sub_r.
    - apply Z.divide_mul_l, Z.gcd_divide_l.
    - apply Z.divide_mul_l, Z.gcd_divide_r. }
  pose proof (Z.invmod_coprime' b m Hco) as Hinv.
  rewrite Z.mod_1_l in Hinv by lia.
  transitivity ((Z.invmod b m * (b * u)) mod m).
  - rewrite Zmult_mod, Hbu, Z.mul_1_r. now rewrite Zmod_mod.
  - rewrite Z.mul_assoc, Zmult_mod, Hinv, Z.mul_1_l. now rewrite Zmod_mod.
Qed.

(** [powmod(x, -1)] for an element of order [q]. *)
Lemma zpow_inverse (x : Z) :
  x ^ q mod m = 1 -> zpow m x (-1) mod m = x ^ (q - 1) mod m.
Proof.
  intros Hx. unfold zpow. simpl. rewrite Z.pow_1_r.
  apply invmod_unique.
  replace (x * x ^ (q - 1)) with (x ^ q); [exact Hx|].
  replace q with (1 + (q - 1)) at 1 by lia.
  rewrite Z.pow_add_r by lia. now rewrite Z.pow_1_r.
Qed.

(** Dividing by an element of order [q] undoes multiplying by it. *)
Lemma mul_inverse_cancel (a x : Z) :
  x ^ q mod m = 1 ->
  ((a * x mod m) * (zpow m x (-1) mod m)) mod m = a mod m.
Proof.
  intros Hx. rewrite zpow_inverse by exact Hx.
  rewrite <- Zmult_mod, <- Z.mul_assoc.
  replace (x * x ^ (q - 1)) with (x ^ q).
  - rewrite Zmult_mod, Hx, Z.mul_1_r. now rewrite Zmod_mod.
  - replace q with (1 + (q - 1)) at 1 by lia.
    rewrite Z.pow_add_r by lia. now rewrite Z.pow_1_r.
Qed.

(** If [z * b] is congruent to [x], then [x] divided by [b] is [z]. *)
Lemma div_characterization (x b z : Z) :
  b ^ q mod m = 1 -> (z * b) mod m = x mod m ->
  (x * (zpow m b (-1) mod m)) mod m = z mod m.
Proof.
  intros Hb Hzb. rewrite <- (mul_inverse_cancel z b Hb).
  rewrite Hzb. now rewrite Zmult_mod_idemp_l.
Qed.

End OrderArithmetic.

(** ** Completeness of the proofs built on Chaum-Pedersen *)

Section Reductions.

(** The honest transcript for [h_1 = g_1^alpha], [h_2 = g_2^alpha]. *)
Lemma dleq_honest (G_q : SchnorrGroup) (g_1 g_2 h_1 h_2 alpha w : Z) :
  1 < p G_q -> 0 < q G_q ->
  g_1 ^ q G_q mod p G_q = 1 -> g_2 ^ q G_q mod p G_q = 1 ->
  0 <= w < q G_q ->
  h_1 = powmod G_q g_1 alpha -> h_2 = powmod G_q g_2 alpha ->
  verify_dleq G_q (proof_dleq w G_q g_1 h_1 g_2 h_2 alpha) g_1 h_1 g_2 h_2 = true.
Proof.
  intros Hp Hq Hg1 Hg2 Hw -> ->.
  unfold verify_dleq, proof_dleq. cbv zeta.
  apply andb_true_intro. split; apply Z.eqb_eq; unfold powmod; symmetry.
  - apply (dleq_equation (p G_q) (q G_q) Hp Hq g_1 Hg1);
      [apply (hashfunc_range G_q _ Hq)|exact Hw].
  - apply (dleq_equation (p G_q) (q G_q) Hp Hq g_2 Hg2);
      [apply (hashfunc_range G_q _ Hq)|exact Hw].
Qed.

(** The quotient of two encryptions' components, as the reductions
    compute it. *)
Lemma quotient_of_powers (G_q : SchnorrGroup) (g x b e : Z) :
  1 < p G_q -> 0 < q G_q ->
  g ^ q G_q mod p G_q = 1 -> b ^ q G_q mod p G_q = 1 ->
  (powmod G_q g e * b) mod p G_q = x mod p G_q ->
  x * powmod G_q b (-1) mod p G_q = powmod G_q g e.
Proof.
  intros Hp Hq Hg Hb Hx. unfold powmod in *.
  rewrite (div_characterization (p G_q) (q G_q) Hp Hq x b _ Hb Hx).
  apply Zmod_mod.
Qed.

(** X1. Completeness of the proof of correct decryption: for a
    ciphertext [(g^r, y^r * m)] of a message [m] of the group, the
    transcript of [proof_correct_decryption] for [m] and [r] is accepted
    by [verify_correct_decryption]. *)
Theorem correct_decryption_complete (w : Z) (key : ElGamalKeypair)
    (c : ElGamalCiphertext) (m r : Z) :
  let G_q := ct_G_q c in
  1 < p G_q -> 0 < q G_q ->
  powmod G_q (key_g key) (q G_q) = 1 ->
  powmod G_q (key_y key) (q G_q) = 1 ->
  powmod G_q m (q G_q) = 1 ->
  ct_a c = powmod G_q (key_g key) r ->
  ct_b c = powmod G_q (key_y key) r * m mod p G_q ->
  0 <= w < q G_q ->
  verify_correct_decryption (proof_correct_decryption w key c m r) key c m = true.
Proof.
  intros G_q Hp Hq Hg Hy Hm Ha Hb Hw.
  apply powmod_order_elim in Hg, Hy, Hm; try assumption.
  unfold verify_correct_decryption, proof_correct_decryption. fold G_q.
  apply dleq_honest; try assumption.
  apply quotient_of_powers; try assumption.
  rewrite Hb. now rewrite Zmod_mod.
Qed.

Lemma correct_decryption_complete_witness :
  verify_correct_decryption (proof_correct_decryption 5 key23 (enc23 9 3) 9 3)
    key23 (enc23 9 3) 9 = true.
Proof.
  apply (correct_decryption_complete 5 key23 (enc23 9 3) 9 3);
    vm_compute; repeat split; discriminate.
Defined.

(** X2. Completeness of the proof of plaintext equality: for two
    ciphertexts [(g^r, y^r * m)] and [(g^r', y^r' * m)] of the same
    message of the group, under a key of the ciphertext's group, the
    transcript of [proof_plaintext_equality] is accepted by
    [verify_plaintext_equality]. *)
Theorem plaintext_equality_complete (w : Z) (key : ElGamalKeypair)
    (c : ElGamalCiphertext) (r : Z) (c_prime : ElGamalCiphertext) (r_prime m : Z) :
  let G_q := ct_G_q c in
  key_G_q key = G_q ->
  1 < p G_q -> 0 < q G_q ->
  powmod G_q (key_g key) (q G_q) = 1 ->
  powmod G_q (key_y key) (q G_q) = 1 ->
  powmod G_q m (q G_q) = 1 ->
  ct_a c = powmod G_q (key_g key) r ->
  ct_b c = powmod G_q (key_y key) r * m mod p G_q ->
  ct_a c_prime = powmod G_q (key_g key) r_prime ->
  ct_b c_prime = powmod G_q (key_y key) r_prime * m mod p G_q ->
  0 <= w < q G_q ->
  verify_plaintext_equality (proof_plaintext_equality w key c r c_prime r_prime)
    key c c_prime = true.
Proof.
  intros G_q Hkey Hp Hq Hg Hy Hm Ha Hb Ha' Hb' Hw.
  apply powmod_order_elim in Hg, Hy, Hm; try assumption.
  unfold verify_plaintext_equality, proof_plaintext_equality. cbv zeta.
  rewrite Hkey. fold G_q. unfold order.
  assert (Hquot : forall g x xr, g ^ q G_q mod p G_q = 1 ->
            xr ^ q G_q mod p G_q = 1 ->
            (powmod G_q g ((r_prime - r) mod q G_q) * xr) mod p G_q = x mod p G_q ->
            x * powmod G_q xr (-1) mod p G_q
            = powmod G_q g ((r_prime - r) mod q G_q)).
  { intros g x xr Hgo Hxo Hx. now apply quotient_of_powers. }
  apply dleq_honest; try assumption.
  - apply Hquot; [exact Hg| |].
    + rewrite Ha. unfold powmod. rewrite (powmod_canonical _ _ Hp Hq _ _ Hg).
      now apply pow_order_closed.
    + rewrite Ha, Ha'. unfold powmod.
      rewrite !(powmod_canonical _ _ Hp Hq _ _ Hg), Zmod_mod.
      rewrite (pow_order_add _ _ Hp Hq _ _ _ Hg), Zmod_mod.
      do 3 f_equal. lia.
  - apply Hquot; [exact Hy| |].
    + rewrite Hb. apply mul_order_closed; try assumption.
      unfold powmod. rewrite (powmod_canonical _ _ Hp Hq _ _ Hy).
      now apply pow_order_closed.
    + rewrite Hb, Hb'. unfold powmod.
      rewrite !(powmod_canonical _ _ Hp Hq _ _ Hy), Zmod_mod.
      rewrite Zmult_mod_idemp_r, Z.mul_assoc, Zmult_mod.
      rewrite (pow_order_add _ _ Hp Hq _ _ _ Hy), <- Zmult_mod, Zmod_mod.
      rewrite Zmult_mod_idemp_l.
      replace (r_prime - r + r) with r_prime by lia. reflexivity.
Qed.

Lemma plaintext_equality_complete_witness :
  verify_plaintext_equality (proof_plaintext_equality 5 key23 (enc23 9 3) 3 (enc23 9 8) 8)
    key23 (enc23 9 3) (enc23 9 8) = true.
Proof.
  apply (plaintext_equality_complete 5 key23 (enc23 9 3) 3 (enc23 9 8) 8 9);
    vm_compute; repeat split; discriminate.
Defined.

End Reductions.

(** ** Completeness of the proof of knowledge of an encrypted discrete
    logarithm *)

Section PlaintextDLogComplete.

Lemma two_bases (m q h y a b c d : Z) :
  1 < m -> 0 < q -> h ^ q mod m = 1 -> y ^ q mod m = 1 ->
  ((h ^ (a mod q) mod m * (y ^ (b mod q) mod m)) mod m
   * ((y ^ (c mod q) mod m * (h ^ (d mod q) mod m)) mod m)) mod m
  = (h ^ ((a + d) mod q) mod m * (y ^ ((b + c) mod q) mod m)) mod m.
Proof.
  intros Hm Hq Hh Hy. rewrite <- Zmult_mod.
  replace (h ^ (a mod q) mod m * (y ^ (b mod q) mod m)
           * (y ^ (c mod q) mod m * (h ^ (d mod q) mod m)))
    with ((h ^ (a mod q) mod m * (h ^ (d mod q) mod m))
          * (y ^ (b mod q) mod m * (y ^ (c mod q) mod m))) by ring.
  rewrite Zmult_mod.
  now rewrite (pow_order_add m q Hm Hq h a d Hh), (pow_order_add m q Hm Hq y b c Hy).
Qed.

(** X3. Completeness of the proof of knowledge of the discrete
    logarithm of a plaintext: for a ciphertext [(g^r, y^r * h^x)] and
    any sampled [w_1], [w_2], the transcript of [proof_plaintext_dlog]
    is accepted by [verify_plaintext_dlog]. *)
Theorem plaintext_dlog_complete (w_1 w_2 : Z) (key : ElGamalKeypair)
    (c : ElGamalCiphertext) (h x r : Z) :
  let G_q := key_G_q key in
  1 < p G_q -> 0 < q G_q ->
  powmod G_q (key_g key) (q G_q) = 1 ->
  powmod G_q (key_y key) (q G_q) = 1 ->
  powmod G_q h (q G_q) = 1 ->
  ct_a c = powmod G_q (key_g key) r ->
  ct_b c = powmod G_q (key_y key) r * powmod G_q h x mod p G_q ->
  verify_plaintext_dlog (proof_plaintext_dlog w_1 w_2 key c h x r) key c h = true.
Proof.
  intros G_q Hp Hq Hg Hy Hh Ha Hb.
  apply powmod_order_elim in Hg, Hy, Hh; try assumption.
  unfold verify_plaintext_dlog, proof_plaintext_dlog. cbv zeta. fold G_q.
  set (challenge := hashfunc G_q _).
  assert (Hc : 0 <= challenge) by apply (hashfunc_range G_q _ Hq).
  unfold order, powmod. rewrite Ha, Hb. unfold powmod.
  rewrite !(powmod_canonical _ _ Hp Hq _ _ Hg).
  rewrite !(powmod_canonical _ _ Hp Hq _ _ Hy).
  rewrite !(powmod_canonical _ _ Hp Hq _ _ Hh).
  rewrite !(zpow_nonneg _ _ challenge Hc), !Zmod_mod.
  apply andb_true_intro. split; apply Z.eqb_eq.
  - rewrite (Z.mod_pow_l (_ * _)), Z.pow_mul_l, (Zmult_mod (_ ^ challenge)).
    rewrite (pow_order_pow _ _ Hp Hq _ r challenge Hy Hc).
    rewrite (pow_order_pow _ _ Hp Hq _ x challenge Hh Hc).
    rewrite (two_bases _ _ _ _ _ _ _ _ Hp Hq Hh Hy).
    now rewrite (Z.mul_comm x), (Z.mul_comm r).
  - rewrite (pow_order_pow _ _ Hp Hq _ r challenge Hg Hc).
    rewrite (pow_order_add _ _ Hp Hq _ _ _ Hg).
    now rewrite (Z.mul_comm r).
Qed.

Lemma plaintext_dlog_complete_witness :
  verify_plaintext_dlog
    (proof_plaintext_dlog 5 7 key23
       {| ct_G_q := G23; ct_a := powmod G23 4 3;
          ct_b := powmod G23 2 3 * powmod G23 9 6 mod 23 |} 9 6 3)
    key23
    {| ct_G_q := G23; ct_a := powmod G23 4 3;
       ct_b := powmod G23 2 3 * powmod G23 9 6 mod 23 |} 9 = true.
Proof.
  apply plaintext_dlog_complete; vm_compute; repeat split; discriminate.
Defined.

End PlaintextDLogComplete.

(** ** The double-discrete-log prover *)

Section DoubleDiscreteLogProver.

Lemma proof_dl_equal_ddl_unfold (w : nat -> Z) (G_q G_r : SchnorrGroup)
    (g h y A B x : Z) :
  proof_dl_equal_ddl w G_q G_r g h y A B x
  = if ddl_preconditions G_q G_r g h y A B
    then Ok (ddl_challenge w G_q G_r g h y A B,
             map (ddl_response (order G_r) x)
                 (combine (ddl_challenge w G_q G_r g h y A B) (ddl_samples w)))
    else Raise AssertionError.
Proof.
  unfold proof_dl_equal_ddl, ddl_preconditions.
  destruct (p G_q =? p G_r * 2 + 1); [|reflexivity].
  destruct (is_element G_q g); [|reflexivity].
  destruct (is_element G_q B); [|reflexivity].
  destruct (is_element G_r h); [|reflexivity].
  destruct (is_element G_r y); [|reflexivity].
  destruct (is_element G_r A); reflexivity.
Qed.

Lemma ddl_samples_length (w : nat -> Z) : length (ddl_samples w) = 256%nat.
Proof. unfold ddl_samples. now rewrite length_map, length_seq. Qed.

(** X4. [proof_dl_equal_ddl] raises [AssertionError] when an asserted
    precondition fails; otherwise, in a group of positive order [r], it
    returns 256 challenge bits, each 0 or 1, and 256 responses, each in
    [0, r). *)
Theorem proof_dl_equal_ddl_shape (w : nat -> Z) (G_q G_r : SchnorrGroup)
    (g h y A B x : Z) :
  (ddl_preconditions G_q G_r g h y A B = false ->
   proof_dl_equal_ddl w G_q G_r g h y A B x = Raise AssertionError)
  /\ (ddl_preconditions G_q G_r g h y A B = true -> 0 < q G_r ->
      exists c r,
        proof_dl_equal_ddl w G_q G_r g h y A B x = Ok (c, r)
        /\ length c = 256%nat /\ length r = 256%nat
        /\ Forall (fun c_i => c_i = 0 \/ c_i = 1) c
        /\ Forall (fun r_i => 0 <= r_i < q G_r) r).
Proof.
  rewrite proof_dl_equal_ddl_unfold. split; intros Hpre; rewrite Hpre; [reflexivity|].
  intros Hq. eexists _, _. split; [reflexivity|].
  split; [apply hashfunc_bits_length|].
  split; [|split].
  - rewrite length_map, length_combine, ddl_samples_length.
    unfold ddl_challenge. rewrite hashfunc_bits_length. reflexivity.
  - apply bits_binary.
  - apply List.Forall_forall. intros r_i Hin.
    apply in_map_iff in Hin as ([c_i w_i] & <- & _).
    unfold ddl_response, order. now apply Z.mod_pos_bound.
Qed.

Lemma proof_dl_equal_ddl_shape_witness :
  exists c r,
    proof_dl_equal_ddl (fun i => Z.of_nat i mod 5) G23 G11 4 3 4 5 13 3 = Ok (c, r)
    /\ length c = 256%nat /\ length r = 256%nat
    /\ Forall (fun c_i => c_i = 0 \/ c_i = 1) c
    /\ Forall (fun r_i => 0 <= r_i < q G11) r.
Proof.
  apply (proj2 (proof_dl_equal_ddl_shape (fun i => Z.of_nat i mod 5)
                  G23 G11 4 3 4 5 13 3)); reflexivity.
Defined.

End DoubleDiscreteLogProver.

(** ** Completeness of the double-discrete-log proof *)

Section DoubleDiscreteLogComplete.

Variables G_q G_r : SchnorrGroup.
Variables g h y x : Z.

Hypothesis outer_modulus : 1 < p G_q.
Hypothesis inner_modulus : 1 < p G_r.
Hypothesis nested : q G_q = p G_r.
Hypothesis inner_order : 0 < q G_r.
Hypothesis g_order : g ^ q G_q mod p G_q = 1.
Hypothesis h_order : h ^ q G_r mod p G_r = 1.
Hypothesis y_order : y ^ q G_r mod p G_r = 1.

Let A := powmod G_r h x.
Let B := powmod G_q g (powmod G_r y x).

Lemma outer_order : 0 < q G_q.
Proof. rewrite nested. lia. Qed.

(** The verifier recomputes the commitment [t_h] of an honest round. *)
Lemma ddl_round_t_h (c_i w_i : Z) :
  c_i = 0 \/ c_i = 1 ->
  ddl_t_h G_r h A (ddl_response (order G_r) x (c_i, w_i), c_i) = powmod G_r h w_i.
Proof.
  intros Hc. unfold ddl_t_h, ddl_response, order, A, powmod.
  rewrite Zmult_mod.
  rewrite !(powmod_canonical _ _ inner_modulus inner_order _ _ h_order), Zmod_mod.
  destruct Hc as [-> | ->].
  - rewrite (zpow_nonneg _ _ 0) by lia. rewrite Z.pow_0_r, Z.mod_1_l, Z.mul_1_r by lia.
    rewrite Zmod_mod. do 3 f_equal. lia.
  - rewrite (zpow_nonneg _ _ 1) by lia. rewrite Z.pow_1_r, Zmod_mod.
    rewrite (pow_order_add _ _ inner_modulus inner_order _ _ _ h_order).
    do 3 f_equal. lia.
Qed.

(** The verifier recomputes the commitment [t_g] of an honest round. *)
Lemma ddl_round_t_g (c_i w_i : Z) :
  c_i = 0 \/ c_i = 1 ->
  ddl_t_g G_q G_r g y B (ddl_response (order G_r) x (c_i, w_i), c_i)
  = powmod G_q g (powmod G_r y w_i).
Proof.
  intros Hc. unfold ddl_t_g, ddl_response, order.
  fold (powmod G_r y ((w_i - c_i * x) mod q G_r)).
  assert (Hy : forall e, powmod G_r y e = y ^ (e mod q G_r) mod p G_r).
  { intros e. apply (powmod_canonical _ _ inner_modulus inner_order _ _ y_order). }
  assert (Hpos : forall e, 0 <= powmod G_r y e < p G_r).
  { intros e. unfold powmod. apply Z.mod_pos_bound. lia. }
  destruct Hc as [-> | ->].
  - change (if 0 =? 0 then g else B) with g.
    rewrite !Hy. unfold powmod. rewrite Zmod_mod.
    replace (w_i - 0 * x) with w_i by lia. reflexivity.
  - change (if 1 =? 0 then g else B) with B. unfold B.
    rewrite !Hy. unfold powmod.
    pose proof (Z.mod_pos_bound (y ^ (((w_i - 1 * x) mod q G_r) mod q G_r)) (p G_r)
                  ltac:(lia)) as He.
    rewrite (zpow_nonneg _ _ (y ^ (((w_i - 1 * x) mod q G_r) mod q G_r) mod p G_r))
      by lia.
    rewrite !(powmod_canonical _ _ outer_modulus outer_order _ _ g_order).
    rewrite (pow_order_pow _ _ outer_modulus outer_order _ _ _ g_order) by lia.
    do 2 f_equal. rewrite nested.
    rewrite (pow_order_add _ _ inner_modulus inner_order _ _ _ y_order).
    rewrite !Zmod_mod, Zplus_mod_idemp_r. do 3 f_equal. lia.
Qed.

End DoubleDiscreteLogComplete.

Section DoubleDiscreteLogCompleteness.

(** Over the whole transcript. *)
Lemma ddl_rounds (G_r : SchnorrGroup) (x : Z) (f : Z * Z -> Z) (f' : Z -> Z)
    (cs ws : list Z) :
  (forall c_i w_i, c_i = 0 \/ c_i = 1 ->
     f (ddl_response (order G_r) x (c_i, w_i), c_i) = f' w_i) ->
  Forall (fun c_i => c_i = 0 \/ c_i = 1) cs ->
  length cs = length ws ->
  map f (combine (map (ddl_response (order G_r) x) (combine cs ws)) cs) = map f' ws.
Proof.
  intros Hf Hcs. revert ws.
  induction Hcs as [|c_i cs Hc _ IH]; intros [|w_i ws] Hlen; simpl in *;
    try discriminate; [reflexivity|].
  rewrite IH by lia. f_equal. now apply Hf.
Qed.


(** X5. Completeness of the double-discrete-log proof: when the
    asserted preconditions hold, the order of the outer group is the
    modulus of the inner group, [A = h^x] and [B = g^(y^x)], the
    transcript of [proof_dl_equal_ddl] is accepted by
    [verify_dl_equal_ddl], whatever values are sampled. *)
Theorem dl_equal_ddl_complete (w : nat -> Z) (G_q G_r : SchnorrGroup) (g h y x : Z) :
  let A := powmod G_r h x in
  let B := powmod G_q g (powmod G_r y x) in
  ddl_preconditions G_q G_r g h y A B = true ->
  q G_q = p G_r -> 0 < q G_r ->
  exists proof,
    proof_dl_equal_ddl w G_q G_r g h y A B x = Ok proof
    /\ verify_dl_equal_ddl proof G_q G_r g h y A B = Ok true.
Proof.
  intros A B Hpre Hnested Hr.
  rewrite proof_dl_equal_ddl_unfold, Hpre. eexists. split; [reflexivity|].
  rewrite verify_dl_equal_ddl_unfold, Hpre. f_equal. apply list_eqb_eq.
  unfold ddl_preconditions in Hpre. rewrite !andb_true_iff in Hpre.
  destruct Hpre as (((((_ & Hg) & _) & Hh) & Hy) & _).
  unfold is_element in Hg, Hh, Hy. rewrite !andb_true_iff in Hg, Hh, Hy.
  destruct Hg as ((Hg0 & Hg1) & Hg). destruct Hh as ((Hh0 & Hh1) & Hh).
  destruct Hy as (_ & Hy).
  apply Z.ltb_lt in Hg0, Hg1, Hh0, Hh1. apply Z.eqb_eq in Hg, Hh, Hy.
  assert (Hpq : 1 < p G_q) by lia. assert (Hpr : 1 < p G_r) by lia.
  apply powmod_order_elim in Hg, Hh, Hy; try lia.
  pose proof (hashfunc_bits_length
                ([g; h; y; A; B]
                 ++ map (fun w_i => powmod G_q g (powmod G_r y w_i)) (ddl_samples w)
                 ++ map (fun w_i => powmod G_r h w_i) (ddl_samples w))) as Hlen.
  fold (ddl_challenge w G_q G_r g h y A B) in Hlen.
  rewrite (ddl_rounds G_r x _ (fun w_i => powmod G_q g (powmod G_r y w_i)));
    [|intros c_i w_i Hc; now apply ddl_round_t_g
     |apply bits_binary|now rewrite Hlen, ddl_samples_length].
  rewrite (ddl_rounds G_r x _ (fun w_i => powmod G_r h w_i));
    [|intros c_i w_i Hc; now apply ddl_round_t_h
     |apply bits_binary|now rewrite Hlen, ddl_samples_length].
  reflexivity.
Qed.

Lemma dl_equal_ddl_complete_witness :
  exists proof,
    proof_dl_equal_ddl (fun i => Z.of_nat i mod 5) G23 G11 4 3 4
      (powmod G11 3 3) (powmod G23 4 (powmod G11 4 3)) 3 = Ok proof
    /\ verify_dl_equal_ddl proof G23 G11 4 3 4
         (powmod G11 3 3) (powmod G23 4 (powmod G11 4 3)) = Ok true.
Proof.
  apply (dl_equal_ddl_complete (fun i => Z.of_nat i mod 5) G23 G11 4 3 4 3);
    reflexivity.
Defined.

End DoubleDiscreteLogCompleteness.

(** ** Completeness of the disjunctive proof *)

Section ORLoopValues.

Variable key : ElGamalKeypair.
Variables a_inv b_inv : Z.
Variable sim : nat -> Z * Z.
Variable j : Z.

Lemma simulate_step (t : list (option Z * option Z)) (res ch : list (option Z))
    (i : nat) (c_prime_i : ElGamalCiphertext) :
  Z.of_nat i <> j ->
  simulate key a_inv b_inv sim j (t, res, ch) (i, c_prime_i)
  = (<[i := simulated_commitment key a_inv b_inv (sim i) c_prime_i]> t,
     <[i := Some (fst (sim i))]> res, <[i := Some (snd (sim i))]> ch).
Proof.
  intros Hij. unfold simulate, simulated_commitment.
  apply Z.eqb_neq in Hij. rewrite Hij. now destruct (sim i).
Qed.

(** The commitments stored by the loop. *)
Lemma simulate_loop_values (cs : list ElGamalCiphertext)
    (t0 : list (option Z * option Z)) (res0 ch0 : list (option Z)) :
  (length cs <= length t0)%nat ->
  (length cs <= length res0)%nat ->
  (length cs <= length ch0)%nat ->
  forall (i : nat) (c_prime_i : ElGamalCiphertext),
    cs !! i = Some c_prime_i -> Z.of_nat i <> j ->
    fst (fst (fold_left (simulate key a_inv b_inv sim j)
                        (combine (seq 0 (length cs)) cs) (t0, res0, ch0))) !! i
    = Some (simulated_commitment key a_inv b_inv (sim i) c_prime_i).
Proof.
  induction cs as [|c' cs IH] using rev_ind; intros Ht Hres Hch i c_prime_i Hi Hij.
  - discriminate Hi.
  - rewrite length_app in *. simpl in Ht, Hres, Hch.
    replace (length cs + length [c'])%nat with (S (length cs)) by (simpl; lia).
    rewrite seq_S, combine_snoc, fold_left_app by now rewrite length_seq.
    cbn [fold_left Nat.add].
    destruct (fold_left (simulate key a_inv b_inv sim j)
                        (combine (seq 0 (length cs)) cs) (t0, res0, ch0))
      as [[t res] ch] eqn:Hfold.
    assert (Hlen : length t = length t0).
    { destruct (simulate_loop key a_inv b_inv sim j cs t0 res0 ch0)
        as (t' & res' & ch' & Hfold' & Hlt & _); try lia.
      rewrite Hfold in Hfold'. inversion Hfold'. now subst. }
    pose proof (lookup_lt_Some _ _ _ Hi) as Hlt. rewrite length_app in Hlt. simpl in Hlt.
    destruct (Nat.eq_dec i (length cs)) as [->|Hne].
    + rewrite list_lookup_middle in Hi by reflexivity. inversion Hi; subst c'.
      rewrite simulate_step by exact Hij. simpl.
      now rewrite list_lookup_insert_eq by lia.
    + rewrite lookup_app_l in Hi by lia.
      specialize (IH ltac:(lia) ltac:(lia) ltac:(lia) i c_prime_i Hi Hij). simpl in IH.
      destruct (Z.eq_dec (Z.of_nat (length cs)) j) as [Heq|Hneq].
      * unfold simulate. apply Z.eqb_eq in Heq. rewrite Heq. exact IH.
      * rewrite simulate_step by exact Hneq. simpl.
        now rewrite list_lookup_insert_ne by auto.
Qed.

End ORLoopValues.

Section ORSums.

Lemma sum_cons (x : Z) (l : list Z) : Py.sum (x :: l) = x + Py.sum l.
Proof. unfold Py.sum. simpl. rewrite sum_acc. unfold Py.sum. lia. Qed.

(** Leaving out entries that count for zero does not change a sum. *)
Lemma sum_filter_zero (keep : nat * option Z -> bool) (pairs : list (nat * option Z)) :
  (forall ic, In ic pairs -> keep ic = false -> default 0 (snd ic) = 0) ->
  Py.sum (map (default 0) (map snd (List.filter keep pairs)))
  = Py.sum (map (default 0) (map snd pairs)).
Proof.
  induction pairs as [|ic pairs IH]; intros Hz; simpl; [reflexivity|].
  assert (IH' := IH (fun ic' Hin => Hz ic' (or_intror Hin))).
  destruct (keep ic) eqn:Hk; simpl; rewrite !sum_cons, ?IH'; [reflexivity|].
  rewrite (Hz ic (or_introl eq_refl) Hk). lia.
Qed.

Lemma lookup_repeat {A : Type} (x : A) (n i : nat) :
  (i < n)%nat -> repeat x n !! i = Some x.
Proof.
  revert i. induction n as [|n IH]; intros [|i] Hi; simpl; try lia; [reflexivity|].
  apply IH. lia.
Qed.

(** The sum of the other sub-challenges while position [k] is still
    empty. *)
Lemma sum_others_skips (challenges : list (option Z)) (k : nat) :
  (forall (i : nat) v, challenges !! i = Some v -> i <> k -> is_Some v) ->
  challenges !! k = Some None ->
  sum_others challenges (Z.of_nat k) = Ok (Py.sum (map (default 0) challenges)).
Proof.
  intros Hfill Hk. unfold sum_others.
  set (keep := fun ic : nat * option Z => negb (Z.of_nat (fst ic) =? Z.of_nat k)).
  set (pairs := combine (seq 0 (length challenges)) challenges).
  assert (Hkept : Forall is_Some (map snd (List.filter keep pairs))).
  { apply List.Forall_forall. intros v Hin.
    apply in_map_iff in Hin as ([i v'] & Hv & Hin). simpl in Hv. subst v'.
    apply filter_In in Hin as [Hin Hkeep].
    apply in_combine_seq in Hin as [_ Hl]. rewrite Nat.sub_0_r in Hl.
    apply (Hfill i v Hl). unfold keep in Hkeep. simpl in Hkeep.
    apply negb_true_iff, Z.eqb_neq in Hkeep. lia. }
  rewrite (the_ints_filled _ _ Hkept). cbn [Py.bind]. f_equal.
  rewrite sum_filter_zero.
  - unfold pairs. now rewrite snd_combine_seq.
  - intros [i v] Hin Hkeep. unfold keep in Hkeep. simpl in Hkeep.
    apply negb_false_iff, Z.eqb_eq in Hkeep.
    apply in_combine_seq in Hin as [_ Hl]. rewrite Nat.sub_0_r in Hl.
    assert (i = k) as -> by lia. rewrite Hk in Hl. inversion Hl. reflexivity.
Qed.

Lemma in_combine_lookup {A B : Type} (l1 : list A) (l2 : list B) (x : A) (y : B) :
  In (x, y) (combine l1 l2) -> exists i : nat, l1 !! i = Some x /\ l2 !! i = Some y.
Proof.
  revert l2. induction l1 as [|a l1 IH]; intros [|b l2] Hin; simpl in Hin;
    try contradiction.
  destruct Hin as [Heq|Hin].
  - inversion Heq; subst. now exists 0%nat.
  - destruct (IH _ Hin) as (i & H1 & H2). now exists (S i).
Qed.

Lemma lookup_combine {A B : Type} (l1 : list A) (l2 : list B) (i : nat) (xy : A * B) :
  combine l1 l2 !! i = Some xy -> l1 !! i = Some (fst xy) /\ l2 !! i = Some (snd xy).
Proof.
  revert l2 i. induction l1 as [|a l1 IH]; intros [|b l2] [|i] H; simpl in H;
    try discriminate.
  - inversion H. now split.
  - exact (IH l2 i H).
Qed.

End ORSums.

Section ORHonestRun.

Variables (w_j : Z) (sim : nat -> Z * Z) (key : ElGamalKeypair).
Variables (c : ElGamalCiphertext) (r : Z) (c_prime : list ElGamalCiphertext).
Variables (k : nat) (r_j : Z).

Let G_q := key_G_q key.
Let a_inv := powmod G_q (ct_a c) (-1).
Let b_inv := powmod G_q (ct_b c) (-1).

(** The run of the prover on an index [k] of an alternative: position
    [k] keeps the real commitment, the other positions hold simulated
    sub-proofs. *)
Lemma or_prover_run_honest :
  (k < length c_prime)%nat ->
  exists t res ch,
    length t = length c_prime /\ length res = length c_prime
    /\ length ch = length c_prime
    /\ t !! k = Some (Some (powmod G_q (key_g key) w_j), Some (powmod G_q (key_y key) w_j))
    /\ (forall (i : nat) c_prime_i, c_prime !! i = Some c_prime_i -> i <> k ->
          t !! i = Some (simulated_commitment key a_inv b_inv (sim i) c_prime_i)
          /\ res !! i = Some (Some (fst (sim i)))
          /\ ch !! i = Some (Some (snd (sim i))))
    /\ ch !! k = Some None
    /\ let challenge_j :=
         (hashfunc G_q (or_hash_input c c_prime (map (default 0) (map fst t))
                                      (map (default 0) (map snd t)))
          - Py.sum (map (default 0) ch)) mod p G_q in
       proof_plaintext_equality_or w_j sim key c r c_prime (Z.of_nat k) r_j
       = Ok (t,
             <[k := Some ((w_j - (r_j - r) * challenge_j) mod order G_q)]> res,
             <[k := Some challenge_j]> ch).
Proof.
  intros Hk.
  assert (Hidx : Py.index (length c_prime) (Z.of_nat k) = Ok k).
  { destruct (index_in_range (length c_prime) (Z.of_nat k) ltac:(lia))
      as (k' & Hk' & _ & Hpos & _).
    rewrite Hk'. f_equal. specialize (Hpos ltac:(lia)). lia. }
  unfold proof_plaintext_equality_or, Py.setitem.
  fold G_q. fold a_inv. fold b_inv.
  rewrite repeat_length, Hidx. cbn [Py.bind].
  set (t0 := <[k := _]> (repeat (None, None) (length c_prime))).
  assert (Hl0 : length t0 = length c_prime).
  { unfold t0. now rewrite length_insert, repeat_length. }
  pose proof (simulate_loop_values key a_inv b_inv sim (Z.of_nat k) c_prime t0
                (repeat None (length c_prime)) (repeat None (length c_prime))
                ltac:(lia) ltac:(rewrite repeat_length; lia)
                ltac:(rewrite repeat_length; lia)) as Hvalues.
  destruct (simulate_loop key a_inv b_inv sim (Z.of_nat k)
              c_prime t0 (repeat None (length c_prime)) (repeat None (length c_prime)))
    as (t & res & ch & Hfold & Hlt & Hlres & Hlch & Hfill & Hkeep);
    [lia|rewrite repeat_length; lia|rewrite repeat_length; lia|].
  rewrite Hfold in *. cbn [fst] in Hvalues.
  rewrite Hl0 in Hlt. rewrite repeat_length in Hlres, Hlch.
  destruct (Hkeep k (or_intror eq_refl)) as (Htk & _ & Hchk).
  unfold t0 in Htk. rewrite list_lookup_insert_eq in Htk by (rewrite repeat_length; lia).
  rewrite lookup_repeat in Hchk by lia.
  assert (Ht : Forall filled t).
  { apply Forall_lookup_2. intros i x Hx.
    pose proof (lookup_lt_Some _ _ _ Hx) as Hi.
    destruct (Nat.eq_dec i k) as [->|Hik].
    - rewrite Htk in Hx. inversion Hx. split; simpl; eauto.
    - destruct (Hfill i ltac:(lia) ltac:(lia)) as ((x1 & x2 & Hti) & _).
      rewrite Hti in Hx. inversion Hx. split; simpl; eauto. }
  assert (Ht1 : Forall is_Some (map fst t)).
  { apply List.Forall_map. eapply List.Forall_impl; [|exact Ht]. now intros ti [? _]. }
  assert (Ht2 : Forall is_Some (map snd t)).
  { apply List.Forall_map. eapply List.Forall_impl; [|exact Ht]. now intros ti [_ ?]. }
  rewrite (the_ints_filled _ _ Ht1), (the_ints_filled _ _ Ht2). cbn [Py.bind].
  rewrite (sum_others_skips ch k); [|
    intros i v Hv Hik; pose proof (lookup_lt_Some _ _ _ Hv) as Hi;
    destruct (Hfill i ltac:(lia) ltac:(lia)) as (_ & _ & Hc); rewrite Hc in Hv;
    inversion Hv; eauto | exact Hchk].
  cbn [Py.bind]. rewrite Hlch, Hidx. cbn [Py.bind]. rewrite Hlres, Hidx. cbn [Py.bind].
  exists t, res, ch.
  do 3 (split; [assumption|]). split; [exact Htk|]. split; [|split; [exact Hchk|reflexivity]].
  intros i c_prime_i Hci Hik.
  pose proof (lookup_lt_Some _ _ _ Hci) as Hi.
  destruct (Hfill i Hi ltac:(lia)) as (_ & Hr & Hc).
  split; [|now split]. apply Hvalues; [exact Hci|lia].
Qed.

End ORHonestRun.

Section ORComplete.

(** The real sub-proof satisfies the verifier's equation. *)
Lemma honest_row (G_q : SchnorrGroup) (g X w alpha challenge : Z) :
  1 < p G_q -> 0 < q G_q -> g ^ q G_q mod p G_q = 1 ->
  0 <= challenge -> 0 <= w < q G_q ->
  X mod p G_q = powmod G_q g alpha ->
  powmod G_q g w
  = powmod G_q g ((w - alpha * challenge) mod q G_q) * powmod G_q X challenge mod p G_q.
Proof.
  intros Hp Hq Hg Hc Hw HX. unfold powmod in *.
  rewrite (zpow_nonneg _ X challenge Hc), <- Z.mod_pow_l, HX.
  rewrite <- (zpow_nonneg (p G_q) _ challenge Hc).
  symmetry. now apply (dleq_equation (p G_q) (q G_q) Hp Hq g Hg).
Qed.

(** X6. Completeness of the disjunctive proof: when the alternative at
    index [k] encrypts the same message of the group as [c], with
    randomness [r_j], the transcript of [proof_plaintext_equality_or]
    for the index [k] is accepted by [verify_plaintext_equality_or],
    whatever the other alternatives and the values sampled for the
    simulated sub-proofs are. *)
Theorem plaintext_equality_or_complete (w_j : Z) (sim : nat -> Z * Z)
    (key : ElGamalKeypair) (c : ElGamalCiphertext) (r : Z)
    (c_prime : list ElGamalCiphertext) (k : nat) (c_k : ElGamalCiphertext)
    (r_j m : Z) :
  let G_q := key_G_q key in
  1 < p G_q -> 0 < q G_q <= p G_q ->
  powmod G_q (key_g key) (q G_q) = 1 ->
  powmod G_q (key_y key) (q G_q) = 1 ->
  powmod G_q m (q G_q) = 1 ->
  ct_a c = powmod G_q (key_g key) r ->
  ct_b c = powmod G_q (key_y key) r * m mod p G_q ->
  c_prime !! k = Some c_k ->
  ct_a c_k = powmod G_q (key_g key) r_j ->
  ct_b c_k = powmod G_q (key_y key) r_j * m mod p G_q ->
  0 <= w_j < q G_q ->
  exists st,
    proof_plaintext_equality_or w_j sim key c r c_prime (Z.of_nat k) r_j = Ok st
    /\ verify_plaintext_equality_or (transcript_of st) key c c_prime = Ok true.
Proof.
  intros G_q Hp Hq Hg Hy Hm Ha Hb Hck Hak Hbk Hw.
  assert (Hq0 : 0 < q G_q) by lia.
  apply powmod_order_elim in Hg, Hy, Hm; try assumption.
  pose proof (lookup_lt_Some _ _ _ Hck) as Hk.
  destruct (or_prover_run_honest w_j sim key c r c_prime k r_j Hk)
    as (t & res & ch & Hlt & Hlres & Hlch & Htk & Hsim & Hchk & Hrun).
  cbv zeta in Hsim, Hrun. fold G_q in Hsim, Hrun, Htk.
  set (master := hashfunc G_q (or_hash_input c c_prime (map (default 0) (map fst t))
                                             (map (default 0) (map snd t)))) in *.
  set (challenge_j := (master - Py.sum (map (default 0) ch)) mod p G_q) in *.
  eexists. split; [exact Hrun|].
  unfold transcript_of. rewrite verify_or_unfold
    by (unfold or_lengths_agree; rewrite !length_map, !length_insert; lia).
  f_equal. apply andb_true_intro. split.
  - rewrite transcript_fst, transcript_snd, map_insert. cbn [default].
    rewrite (sum_insert _ _ 0) by (rewrite lookup_map, Hchk; reflexivity).
    fold G_q. fold master. apply Z.eqb_eq. unfold challenge_j, id.
    rewrite Z.sub_0_r, Zplus_mod_idemp_r.
    match goal with |- _ = ?e mod _ => replace e with master by lia end.
    symmetry. apply Z.mod_small.
    pose proof (hashfunc_range G_q
                  (or_hash_input c c_prime (map (default 0) (map fst t))
                                 (map (default 0) (map snd t))) ltac:(lia)).
    fold master in H. lia.
  - apply forallb_forall. intros [[[ti res_i] challenge_i] c_prime_i] Hin.
    unfold or_rows in Hin.
    apply in_combine_lookup in Hin as (i & Hin & Hci).
    apply lookup_combine in Hin as [Hin Hchi]. cbn [fst snd] in Hin, Hchi.
    apply lookup_combine in Hin as [Hti Hresi]. cbn [fst snd] in Hti, Hresi.
    rewrite lookup_map in Hti. rewrite lookup_map in Hresi. rewrite lookup_map in Hchi.
    unfold or_row_holds. fold G_q.
    destruct (Nat.eq_dec i k) as [->|Hik].
    + rewrite Htk in Hti. rewrite list_lookup_insert_eq in Hresi, Hchi by lia.
      rewrite Hck in Hci.
      inversion Hti; subst ti. inversion Hresi; subst res_i.
      inversion Hchi; subst challenge_i. inversion Hci; subst c_prime_i.
      cbn [fst snd default].
      assert (Hcj : 0 <= challenge_j) by (apply Z.mod_pos_bound; lia).
      assert (Hao : ct_a c ^ q G_q mod p G_q = 1).
      { rewrite Ha. unfold powmod.
        rewrite (powmod_canonical _ _ Hp Hq0 _ _ Hg).
        apply pow_order_closed; [lia|lia|exact Hg]. }
      assert (Hbo : ct_b c ^ q G_q mod p G_q = 1).
      { rewrite Hb. apply mul_order_closed; try assumption; try lia.
        unfold powmod. rewrite (powmod_canonical _ _ Hp Hq0 _ _ Hy).
        apply pow_order_closed; [lia|lia|exact Hy]. }
      apply andb_true_intro. split; apply Z.eqb_eq; unfold order.
      * apply honest_row; try assumption; try lia.
        apply quotient_of_powers; try assumption; try lia.
        rewrite Ha, Hak. unfold powmod.
        rewrite !(powmod_canonical _ _ Hp Hq0 _ _ Hg), Zmod_mod.
        rewrite (pow_order_add _ _ Hp Hq0 _ _ _ Hg).
        do 3 f_equal. lia.
      * apply honest_row; try assumption; try lia.
        apply quotient_of_powers; try assumption; try lia.
        rewrite Hb, Hbk. unfold powmod.
        rewrite !(powmod_canonical _ _ Hp Hq0 _ _ Hy), Zmod_mod.
        rewrite Zmult_mod_idemp_r, Z.mul_assoc, Zmult_mod.
        rewrite (pow_order_add _ _ Hp Hq0 _ _ _ Hy), <- Zmult_mod.
        rewrite Zmult_mod_idemp_l.
        replace (r_j - r + r) with r_j by lia. reflexivity.
    + destruct (Hsim i c_prime_i Hci Hik) as (Hti' & Hresi' & Hchi').
      rewrite Hti' in Hti. rewrite list_lookup_insert_ne in Hresi, Hchi by auto.
      rewrite Hresi' in Hresi. rewrite Hchi' in Hchi.
      inversion Hresi; subst res_i. inversion Hchi; subst challenge_i.
      unfold simulated_commitment in Hti. fold G_q in Hti.
      destruct (sim i) as [res_i challenge_i]. inversion Hti; subst ti.
      cbn [fst snd default]. now rewrite !Z.eqb_refl.
Qed.

Lemma plaintext_equality_or_complete_witness :
  exists st,
    proof_plaintext_equality_or 7 sim23 key23 (enc23 9 3) 3
      [enc23 2 4; enc23 9 8; enc23 3 1] (Z.of_nat 1) 8 = Ok st
    /\ verify_plaintext_equality_or (transcript_of st) key23 (enc23 9 3)
         [enc23 2 4; enc23 9 8; enc23 3 1] = Ok true.
Proof.
  apply (plaintext_equality_or_complete 7 sim23 key23 (enc23 9 3) 3
           [enc23 2 4; enc23 9 8; enc23 3 1] 1 (enc23 9 8) 8 9);
    vm_compute; repeat split; discriminate.
Defined.

End ORComplete.

(** ** More on the hash primitives *)

Section Encoding.

Lemma digits_single (b : Z) : 0 <= b <= 9 -> digits b = [digit_char b].
Proof.
  intros Hb. unfold digits, digits_nat.
  destruct (Z.ltb_spec b 0); [lia|]. cbn [digits_aux].
  now destruct (Z.ltb_spec b 10); [|lia].
Qed.

Lemma digits_append (a b : Z) :
  1 <= a -> 0 <= b <= 9 -> digits (10 * a + b) = digits a ++ digits b.
Proof.
  intros Ha Hb. rewrite (digits_single b Hb).
  destruct (digits_canonical a ltac:(lia)) as (Hne & Hdig & Hzero & Hval).
  apply (canonical_unique _ _ (10 * a + b)); [apply digits_canonical; lia|].
  split; [now destruct (digits a)|]. split; [|split].
  - apply Forall_app. split; [exact Hdig|].
    constructor; [|constructor]. unfold is_digit. rewrite code_digit_char; lia.
  - intros rest Hrest. destruct (digits a) as [|ch s] eqn:Hd; [congruence|].
    simpl in Hrest. inversion Hrest; subst ch.
    rewrite (Hzero s eq_refl) in Hval. vm_compute in Hval. lia.
  - rewrite decimal_value_snoc, Hval, code_digit_char; lia.
Qed.

(** X7. The encodings are hashed without separators: moving the last
    decimal digit of a value into a value of its own changes neither
    [hashfunc] nor [hashfunc_bits]. *)
Theorem hash_ignores_value_boundaries (G_q : SchnorrGroup) (before after : list Z)
    (a b : Z) :
  1 <= a -> 0 <= b <= 9 ->
  hashfunc G_q (before ++ 10 * a + b :: after) = hashfunc G_q (before ++ a :: b :: after)
  /\ hashfunc_bits (before ++ 10 * a + b :: after) = hashfunc_bits (before ++ a :: b :: after).
Proof.
  intros Ha Hb.
  assert (H : concat (map encode (map digits (before ++ 10 * a + b :: after)))
              = concat (map encode (map digits (before ++ a :: b :: after)))).
  { rewrite !map_app, !concat_app. f_equal. cbn [map concat].
    rewrite (digits_append a b Ha Hb). unfold encode.
    now rewrite map_app, <- app_assoc. }
  unfold hashfunc, hashfunc_bits. now rewrite !hashed_message, H.
Qed.

Lemma hash_ignores_value_boundaries_witness :
  (1 <= 12 /\ 0 <= 3 <= 9)
  /\ hashfunc G23 ([4] ++ 10 * 12 + 3 :: [7]) = hashfunc G23 ([4] ++ 12 :: 3 :: [7]).
Proof.
  assert (H1 : 1 <= 12) by discriminate.
  assert (H2 : 0 <= 3 <= 9) by (split; discriminate).
  split; [split; assumption|].
  exact (proj1 (hash_ignores_value_boundaries G23 [4] [7] 12 3 H1 H2)).
Defined.

(** X8. [digits] is injective on the integers, and on a nonnegative
    integer it is read back by [decimal_value]. *)
Theorem digits_round_trip :
  (forall n, 0 <= n -> decimal_value (digits n) = n)
  /\ (forall a b, digits a = digits b -> a = b).
Proof.
  assert (Hrt : forall n, 0 <= n -> decimal_value (digits n) = n).
  { intros n Hn. now destruct (digits_canonical n Hn) as (_ & _ & _ & Hv). }
  assert (Hhead : forall n rest, 0 <= n -> digits n <> "-"%char :: rest).
  { intros n rest Hn Heq.
    destruct (digits_canonical n Hn) as (_ & Hdig & _). rewrite Heq in Hdig.
    inversion Hdig as [|? ? Hd _]. unfold is_digit, code in Hd. simpl in Hd. lia. }
  split; [exact Hrt|]. intros a b Heq.
  destruct (Z.ltb_spec a 0) as [Ha|Ha]; destruct (Z.ltb_spec b 0) as [Hb|Hb].
  - unfold digits in Heq.
    destruct (Z.ltb_spec a 0); [|lia]. destruct (Z.ltb_spec b 0); [|lia].
    inversion Heq as [Hn].
    assert (Hd : digits (- a) = digits (- b)).
    { unfold digits. destruct (Z.ltb_spec (- a) 0); [lia|].
      destruct (Z.ltb_spec (- b) 0); [lia|]. exact Hn. }
    apply (f_equal decimal_value) in Hd. rewrite !Hrt in Hd by lia. lia.
  - exfalso. apply (Hhead b (digits_nat (- a)) Hb). rewrite <- Heq.
    unfold digits. now destruct (Z.ltb_spec a 0); [|lia].
  - exfalso. apply (Hhead a (digits_nat (- b)) Ha). rewrite Heq.
    unfold digits. now destruct (Z.ltb_spec b 0); [|lia].
  - apply (f_equal decimal_value) in Heq. now rewrite !Hrt in Heq by lia.
Qed.

End Encoding.

Section BitsOfDigest.

Lemma be_bytes_octets (n : nat) (x : Z) :
  Forall (fun b => 0 <= b < 256) (SHA256.be_bytes n x).
Proof.
  induction n as [|n IH]; simpl; constructor; [|exact IH].
  change 255 with (Z.ones 8). rewrite Z.land_ones by lia.
  apply Z.mod_pos_bound. reflexivity.
Qed.

Lemma sha256_octets (msg : list Z) :
  Forall (fun b => 0 <= b < 256) (SHA256.sha256 msg).
Proof.
  unfold SHA256.sha256, SHA256.digest_of.
  repeat (apply Forall_app; split); apply be_bytes_octets.
Qed.

Lemma bits_of_octet (b : Z) :
  0 <= b < 256 ->
  bits_value (map (fun i => Z.land (Z.shiftr b (Z.of_nat i)) 1) (seq 0 8)) = b.
Proof.
  intros Hb. cbn [seq map bits_value fold_right].
  rewrite !Z.shiftr_div_pow2 by lia.
  change 1 with (Z.ones 1). rewrite !Z.land_ones by lia.
  change (2 ^ 1) with 2. change (2 ^ Z.of_nat 0) with 1.
  change (2 ^ Z.of_nat 1) with 2. change (2 ^ Z.of_nat 2) with 4.
  change (2 ^ Z.of_nat 3) with 8. change (2 ^ Z.of_nat 4) with 16.
  change (2 ^ Z.of_nat 5) with 32. change (2 ^ Z.of_nat 6) with 64.
  change (2 ^ Z.of_nat 7) with 128.
  replace (b / 4) with (b / 2 / 2) by (now rewrite Z.div_div by lia).
  replace (b / 8) with (b / 2 / 2 / 2) by (now rewrite !Z.div_div by lia).
  replace (b / 16) with (b / 2 / 2 / 2 / 2) by (now rewrite !Z.div_div by lia).
  replace (b / 32) with (b / 2 / 2 / 2 / 2 / 2) by (now rewrite !Z.div_div by lia).
  replace (b / 64) with (b / 2 / 2 / 2 / 2 / 2 / 2) by (now rewrite !Z.div_div by lia).
  replace (b / 128) with (b / 2 / 2 / 2 / 2 / 2 / 2 / 2)
    by (now rewrite !Z.div_div by lia).
  rewrite Z.div_1_r.
  pose proof (Z.div_mod b 2 ltac:(lia)).
  set (q1 := b / 2) in *. pose proof (Z.div_mod q1 2 ltac:(lia)).
  set (q2 := q1 / 2) in *. pose proof (Z.div_mod q2 2 ltac:(lia)).
  set (q3 := q2 / 2) in *. pose proof (Z.div_mod q3 2 ltac:(lia)).
  set (q4 := q3 / 2) in *. pose proof (Z.div_mod q4 2 ltac:(lia)).
  set (q5 := q4 / 2) in *. pose proof (Z.div_mod q5 2 ltac:(lia)).
  set (q6 := q5 / 2) in *. pose proof (Z.div_mod q6 2 ltac:(lia)).
  set (q7 := q6 / 2) in *. pose proof (Z.div_mod q7 2 ltac:(lia)).
  assert (q7 / 2 = 0).
  { unfold q7, q6, q5, q4, q3, q2, q1. rewrite !Z.div_div by lia.
    apply Z.div_small. simpl. lia. }
  lia.
Qed.

Lemma bits_value_app (l1 l2 : list Z) :
  bits_value (l1 ++ l2) = bits_value l1 + 2 ^ Z.of_nat (length l1) * bits_value l2.
Proof.
  induction l1 as [|x l1 IH]; [simpl; lia|].
  cbn [app bits_value fold_right length]. fold (bits_value (l1 ++ l2)).
  fold (bits_value l1). rewrite IH.
  replace (Z.of_nat (S (length l1))) with (Z.of_nat (length l1) + 1) by lia.
  rewrite Z.pow_add_r by lia. lia.
Qed.

Lemma bits_value_of_bytes (bs : list Z) :
  Forall (fun b => 0 <= b < 256) bs ->
  bits_value (_bits_from_bytes bs) = from_bytes_little bs.
Proof.
  induction 1 as [|b bs Hb _ IH]; [reflexivity|].
  rewrite bits_cons, bits_value_app, (bits_of_octet b Hb), IH.
  rewrite length_map, length_seq. simpl. lia.
Qed.

(** X9. The two challenges come from one digest: on every list of
    values, [hashfunc] is the number whose binary digits, least
    significant first, are the 256 bits of [hashfunc_bits], reduced
    modulo the order of the group. *)
Theorem hashfunc_of_hashfunc_bits (G_q : SchnorrGroup) (values : list Z) :
  hashfunc G_q values = bits_value (hashfunc_bits values) mod order G_q.
Proof.
  unfold hashfunc, hashfunc_bits. cbv zeta.
  rewrite bits_value_of_bytes; [reflexivity|].
  unfold hashlib.digest. apply sha256_octets.
Qed.

End BitsOfDigest.

(** ** The sum check modulo [p] does not bind the sub-challenges *)

Section ORForgery.

(** The quotient that the verifier raises to a sub-challenge has order
    [q] when both components have. *)
Lemma quotient_order (G_q : SchnorrGroup) (x a : Z) :
  1 < p G_q -> 0 < q G_q ->
  x ^ q G_q mod p G_q = 1 -> a ^ q G_q mod p G_q = 1 ->
  (x * powmod G_q a (-1)) ^ q G_q mod p G_q = 1.
Proof.
  intros Hp Hq Hx Ha. rewrite <- Z.mod_pow_l. unfold powmod.
  apply mul_order_closed; [exact Hp|exact Hx|].
  rewrite (zpow_inverse _ _ Hp Hq _ Ha), Z.mod_pow_l, <- Z.pow_mul_r by lia.
  rewrite (Z.mul_comm (q G_q - 1)), Z.pow_mul_r by lia.
  apply (pow_order_multiple _ _ Hp _ Ha). lia.
Qed.

(** A sub-challenge that is a multiple of [q] turns the quotient into 1. *)
Lemma powmod_multiple_of_order (G_q : SchnorrGroup) (X n : Z) :
  1 < p G_q -> 0 < q G_q -> X ^ q G_q mod p G_q = 1 -> 0 <= n ->
  powmod G_q X (q G_q * n) = 1.
Proof.
  intros Hp Hq HX Hn. unfold powmod. rewrite zpow_nonneg by nia.
  rewrite Z.pow_mul_r by lia. now apply (pow_order_multiple _ _ Hp _ HX).
Qed.

(** X10. In a group whose order is coprime to its modulus, for every
    pair of ciphertexts with components of order [q], whatever their
    plaintexts, and every [w], there is a sub-challenge with which the
    transcript [([(g^w, y^w)], [w], [challenge])] is accepted by
    [verify_plaintext_equality_or] for the single alternative. *)
Theorem plaintext_equality_or_forgeable (key : ElGamalKeypair)
    (c c_1 : ElGamalCiphertext) (w : Z) :
  let G_q := key_G_q key in
  1 < p G_q -> 0 < q G_q <= p G_q -> Z.coprime (q G_q) (p G_q) ->
  ct_a c ^ q G_q mod p G_q = 1 -> ct_b c ^ q G_q mod p G_q = 1 ->
  ct_a c_1 ^ q G_q mod p G_q = 1 -> ct_b c_1 ^ q G_q mod p G_q = 1 ->
  exists challenge : Z,
    challenge mod q G_q = 0
    /\ verify_plaintext_equality_or
         ([(powmod G_q (key_g key) w, powmod G_q (key_y key) w)], [w], [challenge])
         key c [c_1] = Ok true.
Proof.
  intros G_q Hp Hq Hco Ha Hb Ha1 Hb1.
  assert (Hq0 : 0 < q G_q) by lia.
  set (t_1 := powmod G_q (key_g key) w). set (t_2 := powmod G_q (key_y key) w).
  set (master := hashfunc G_q (or_hash_input c [c_1] [t_1] [t_2])).
  set (n := (master * Z.invmod (q G_q) (p G_q)) mod p G_q).
  assert (Hn : 0 <= n) by (apply Z.mod_pos_bound; lia).
  exists (q G_q * n). split; [rewrite Z.mul_comm; apply Z.mod_mul; lia|].
  rewrite verify_or_unfold by (unfold or_lengths_agree; simpl; auto).
  f_equal. apply andb_true_intro. split.
  - apply Z.eqb_eq. cbn [map fst snd]. fold G_q t_1 t_2 master.
    unfold Py.sum. cbn [fold_left]. rewrite Z.add_0_l. unfold n.
    rewrite Zmult_mod_idemp_r.
    replace (q G_q * (master * Z.invmod (q G_q) (p G_q)))
      with (master * (Z.invmod (q G_q) (p G_q) * q G_q)) by ring.
    rewrite Zmult_mod, (Z.invmod_coprime' _ _ Hco), Z.mod_1_l by lia.
    rewrite Z.mul_1_r, Zmod_mod. symmetry. apply Z.mod_small.
    pose proof (hashfunc_range G_q (or_hash_input c [c_1] [t_1] [t_2]) Hq0) as Hm.
    fold master in Hm. lia.
  - unfold or_rows, or_row_holds. cbn [combine forallb fst snd]. fold G_q.
    rewrite !(powmod_multiple_of_order G_q _ n Hp Hq0)
      by (try apply quotient_order; assumption).
    rewrite !Z.mul_1_r. unfold t_1, t_2, powmod. rewrite !Zmod_mod.
    now rewrite !Z.eqb_refl.
Qed.

Lemma plaintext_equality_or_forgeable_witness :
  exists challenge : Z,
    challenge mod q G23 = 0
    /\ verify_plaintext_equality_or
         ([(powmod G23 4 7, powmod G23 2 7)], [7], [challenge])
         key23 (enc23 9 3) [enc23 2 4] = Ok true.
Proof.
  apply (plaintext_equality_or_forgeable key23 (enc23 9 3) (enc23 2 4) 7);
    vm_compute; repeat split; discriminate.
Defined.

End ORForgery.

(** ** Paired iteration *)

Section Shapes.

Lemma combine_ignores_tail {A B : Type} (l1 extra : list A) (l2 : list B) :
  (length l2 <= length l1)%nat -> combine (l1 ++ extra) l2 = combine l1 l2.
Proof.
  revert l2. induction l1 as [|x l1 IH]; intros [|y l2] Hlen; simpl in *;
    try lia; try reflexivity.
  - now destruct extra.
  - f_equal. apply IH. lia.
Qed.

(** X11. [verify_dl_equal_ddl] pairs responses with challenge bits and
    stops at the shorter list: responses beyond the number of challenge
    bits are ignored, so appending any values to the responses of a
    transcript does not change the verdict. *)
Theorem verify_dl_equal_ddl_ignores_extra_responses (c r extra : list Z)
    (G_q G_r : SchnorrGroup) (g h y A B : Z) :
  (length c <= length r)%nat ->
  verify_dl_equal_ddl (c, r ++ extra) G_q G_r g h y A B
  = verify_dl_equal_ddl (c, r) G_q G_r g h y A B.
Proof.
  intros Hlen. rewrite !verify_dl_equal_ddl_unfold.
  now rewrite (combine_ignores_tail r extra c Hlen).
Qed.

Lemma verify_dl_equal_ddl_ignores_extra_responses_witness :
  verify_dl_equal_ddl (fst ddl_example, snd ddl_example ++ [0; 99]) G23 G11 4 3 4 5 13
  = verify_dl_equal_ddl (fst ddl_example, snd ddl_example) G23 G11 4 3 4 5 13.
Proof.
  apply verify_dl_equal_ddl_ignores_extra_responses. vm_compute. apply le_n.
Defined.

End Shapes.
